(** * The streaming chat relay of the GraphQL worker

    A shallow embedding of the [chatStream] subscription resolver: the
    producer that validates the input, opens the streaming completion
    request, reads the response body chunk by chunk, cuts the decoded
    text at natural break points and pushes the pieces to the
    subscriber.

    JavaScript strings are sequences of UTF-16 code units, and the two
    regular expressions of the resolver carry no [u] flag, so they look
    at one code unit at a time.  A string is therefore a list of code
    units, each a number. *)

From Stdlib Require Import List NArith Arith Bool Lia Ascii String DecimalString.
Import ListNotations.

Local Open Scope N_scope.

(** ** Strings *)

Module JsString.

Definition t := list N.

(** String literals of this file are written as UTF-8 text.  [utf16]
    turns the bytes of such a literal into the code units the
    JavaScript source text denotes (a surrogate pair beyond the basic
    plane). *)
Fixpoint utf16_of_bytes (bytes : list N) : t :=
  match bytes with
  | [] => []
  | b0 :: tl0 =>
      if b0 <? 128 then b0 :: utf16_of_bytes tl0
      else match tl0 with
      | [] => [65533]
      | b1 :: tl1 =>
          if b0 <? 224
          then ((b0 - 192) * 64 + (b1 - 128)) :: utf16_of_bytes tl1
          else match tl1 with
          | [] => [65533]
          | b2 :: tl2 =>
              if b0 <? 240
              then ((b0 - 224) * 4096 + (b1 - 128) * 64 + (b2 - 128))
                     :: utf16_of_bytes tl2
              else match tl2 with
              | [] => [65533]
              | b3 :: tl3 =>
                  let cp := (b0 - 240) * 262144 + (b1 - 128) * 4096
                            + (b2 - 128) * 64 + (b3 - 128) in
                  (55296 + (cp - 65536) / 1024)
                    :: (56320 + (cp - 65536) mod 1024)
                    :: utf16_of_bytes tl3
              end
          end
      end
  end.

Definition utf16 (s : string) : t :=
  utf16_of_bytes (map N_of_ascii (list_ascii_of_string s)).

Fixpoint eqb (a b : t) : bool :=
  match a, b with
  | [], [] => true
  | x :: a', y :: b' => (x =? y) && eqb a' b'
  | _, _ => false
  end.

(** [a.startsWith(b)] and [a.includes(b)]. *)
Fixpoint startsWith (a b : t) : bool :=
  match b, a with
  | [], _ => true
  | y :: b', x :: a' => (x =? y) && startsWith a' b'
  | _ :: _, [] => false
  end.

Fixpoint includes (a b : t) : bool :=
  startsWith a b ||
  match a with
  | [] => false
  | _ :: a' => includes a' b
  end.

(** [s.substring(0, n)] and [s.substring(n)] for a non-negative [n];
    both clamp [n] to the length of [s]. *)
Definition substring_to (n : nat) (s : t) : t := firstn n s.
Definition substring_from (n : nat) (s : t) : t := skipn n s.

(** The decimal rendering of a non-negative integer, as a template
    literal interpolates it. *)
Definition of_N (n : N) : t :=
  map N_of_ascii (list_ascii_of_string (NilZero.string_of_uint (N.to_uint n))).

End JsString.

Definition jsstring : Type := JsString.t.
Definition js (s : string) : jsstring := JsString.utf16 s.

Arguments js : simpl never.

(** ** Regular expressions

    [String.prototype.match] with a regular expression that has no [g]
    flag returns the leftmost match, or [null].  A pattern is given by
    what it matches at the very start of a text (the length it
    consumes there); [String_match] tries every start position from
    left to right. *)

Module RegExp.

Definition pattern := jsstring -> option nat.

(** One code unit of a class, two classes in a row, and [a|b], which
    tries [a] first. *)
Definition class (p : N -> bool) : pattern :=
  fun s => match s with
           | c :: _ => if p c then Some 1%nat else None
           | [] => None
           end.

Definition class2 (p q : N -> bool) : pattern :=
  fun s => match s with
           | c :: d :: _ => if p c && q d then Some 2%nat else None
           | _ => None
           end.

Definition alt (a b : pattern) : pattern :=
  fun s => match a s with
           | Some n => Some n
           | None => b s
           end.

(** The match object: [m.index] and [m[0]]. *)
Record result := { index : nat; matched : jsstring }.

Fixpoint String_match (s : jsstring) (re : pattern) : option result :=
  match re s with
  | Some n => Some {| index := 0; matched := firstn n s |}
  | None =>
      match s with
      | [] => None
      | _ :: s' =>
          match String_match s' re with
          | Some m => Some {| index := S (index m); matched := matched m |}
          | None => None
          end
      end
  end.

(** [\s] without the [u] flag: white space and line terminators. *)
Definition is_space (c : N) : bool :=
  ((9 <=? c) && (c <=? 13)) || (c =? 32) || (c =? 160) || (c =? 0x1680)
  || ((0x2000 <=? c) && (c <=? 0x200a)) || (c =? 0x2028) || (c =? 0x2029)
  || (c =? 0x202f) || (c =? 0x205f) || (c =? 0x3000) || (c =? 0xfeff).

Definition newline : N := 10.

(** [[。？！\n]] *)
Definition is_cjk_mark (c : N) : bool :=
  (c =? 0x3002) || (c =? 0xff1f) || (c =? 0xff01) || (c =? newline).

(** [[.?!]] *)
Definition is_latin_mark (c : N) : bool :=
  (c =? 46) || (c =? 63) || (c =? 33).

(** [/[。？！\n]/] and [/[.?!]\s|\n/]. *)
Definition cjk_re : pattern := class is_cjk_mark.
Definition en_re : pattern :=
  alt (class2 is_latin_mark is_space) (class (N.eqb newline)).

End RegExp.

Import RegExp.

(** ** The segmenter

    One pass of the inner [while (true)] of the read loop.  The loop
    has no bound in the source; here it runs on fuel and answers
    [None] when the fuel is used up before the loop has left through
    its [break]. *)

(** The choice of [breakPos] and [breakSize]; [None] stands for
    [breakPos === -1]. *)
Definition find_break (messageBuffer : jsstring) : option (nat * nat) :=
  let cjkMatch := String_match messageBuffer cjk_re in
  let enMatch := String_match messageBuffer en_re in
  match cjkMatch with
  | Some m => Some (index m, 1%nat)
  | None =>
      match enMatch with
      | Some m => Some (index m, List.length (matched m))
      | None => None
      end
  end.

Fixpoint scan (fuel : nat) (segments : list jsstring) (messageBuffer : jsstring)
  : option (list jsstring * jsstring) :=
  match fuel with
  | O => None
  | S fuel' =>
      match find_break messageBuffer with
      | None => Some (segments, messageBuffer)
      | Some (breakPos, breakSize) =>
          scan fuel'
            (segments ++ [JsString.substring_to (breakPos + breakSize) messageBuffer])
            (JsString.substring_from (breakPos + breakSize) messageBuffer)
      end
  end.

(** [messageBuffer += chunk] followed by the inner loop: the segments
    completed by this chunk and the text kept for the next one. *)
Definition feed (messageBuffer chunk : jsstring)
  : option (list jsstring * jsstring) :=
  let messageBuffer := messageBuffer ++ chunk in
  scan (S (List.length messageBuffer)) [] messageBuffer.

(** ** Values the resolver meets at run time *)

(** A thrown error, by the two properties the [catch] block reads. *)
Module Error.

Record t := { name : jsstring; message : jsstring }.

(** What the engine throws when a property of [null] is read. *)
Definition TypeError_of_null (property : string) : t :=
  {| name := js "TypeError";
     message := js "Cannot read properties of null (reading '"
                  ++ js property ++ js "')" |}.

(** What a pending [fetch] or [read] is rejected with once
    [controller.abort()] has run. *)
Definition AbortError : t :=
  {| name := js "AbortError"; message := js "The operation was aborted" |}.

(** What the engine throws when a template literal is given an object
    it cannot turn into a string. *)
Definition TypeError_to_primitive : t :=
  {| name := js "TypeError";
     message := js "Cannot convert object to primitive value" |}.

End Error.

(** What [response.json()] can resolve to.  A number is kept by the two
    things the resolver can observe of it: whether it is zero, and the
    text it converts to. *)
Module Json.

#[local] Set Warnings "-register-all".

Inductive value :=
| Null
| Bool (b : bool)
| Number (zero : bool) (text : jsstring)
| String (s : jsstring)
| Array (items : list value)
| Object (fields : list (jsstring * value)).

Definition truthy (v : value) : bool :=
  match v with
  | Null => false
  | Bool b => b
  | Number zero _ => negb zero
  | String s => negb (JsString.eqb s [])
  | Array _ | Object _ => true
  end.

(** Own property lookup in a parsed object, where a repeated key keeps
    its last value; [None] is [undefined]. *)
Fixpoint lookup (fields : list (jsstring * value)) (key : jsstring)
  : option value :=
  match fields with
  | [] => None
  | (k, v) :: rest =>
      match lookup rest key with
      | Some later => Some later
      | None => if JsString.eqb k key then Some v else None
      end
  end.

(** The conversion a template literal applies to an interpolated
    value; [None] when the conversion throws.  An object with no
    [toString] key of its own is rendered by the method it inherits.  A
    parsed object with such a key shadows that method with a value that
    cannot be called, and the method [valueOf] it inherits gives back
    the object, so the conversion throws.  An array is rendered item by
    item, [null] as nothing, with commas between. *)
Fixpoint ToString (v : value) : option jsstring :=
  match v with
  | Null => Some (js "null")
  | Bool true => Some (js "true")
  | Bool false => Some (js "false")
  | Number _ text => Some text
  | String s => Some s
  | Array items =>
      (fix joined (l : list value) : option jsstring :=
         match l with
         | [] => Some []
         | item :: rest =>
             match match item with
                   | Null => Some []
                   | _ => ToString item
                   end with
             | None => None
             | Some first =>
                 match rest with
                 | [] => Some first
                 | _ :: _ =>
                     match joined rest with
                     | Some more => Some (first ++ js "," ++ more)
                     | None => None
                     end
                 end
             end
         end) items
  | Object fields =>
      match lookup fields (js "toString") with
      | Some _ => None
      | None => Some (js "[object Object]")
      end
  end.

End Json.

(** ** Effects

    The producer is observed through the calls it makes: [push], [stop],
    the upstream [fetch], and taking and releasing the reader of the
    response body.  A computation ends normally, ends by a thrown error,
    or never ends; it carries the calls made up to that point. *)

Inductive event :=
| Push (message : jsstring)
| Stop
| Fetch (content : jsstring)
| GetReader
| ReleaseLock.

Inductive completion (A : Type) :=
| Normal (a : A)
| Throw (e : Error.t)
| Diverge.

Arguments Normal {A} a.
Arguments Throw {A} e.
Arguments Diverge {A}.

Definition M (A : Type) : Type := completion A * list event.

Definition ret {A} (a : A) : M A := (Normal a, []).
Definition throw {A} (e : Error.t) : M A := (Throw e, []).
Definition diverge {A} : M A := (Diverge, []).
Definition emit (ev : event) : M unit := (Normal tt, [ev]).

Definition bind {A B} (m : M A) (k : A -> M B) : M B :=
  match m with
  | (Normal a, t) => let (c, t') := k a in (c, t ++ t')
  | (Throw e, t) => (Throw e, t)
  | (Diverge, t) => (Diverge, t)
  end.

Notation "x <- m ;; k" := (bind m (fun x => k))
  (at level 61, m at next level, right associativity).
Notation "m ;; k" := (bind m (fun _ => k))
  (at level 61, right associativity).

(** [try { body } catch (error) { handler }] *)
Definition try_catch {A} (body : M A) (handler : Error.t -> M A) : M A :=
  match body with
  | (Throw e, t) => let (c, t') := handler e in (c, t ++ t')
  | done => done
  end.

Definition outcome {A} (m : M A) : completion A := fst m.
Definition trace {A} (m : M A) : list event := snd m.

(** ** Computations inside a run

    What a call to [push] does depends on what the run has done before
    it.  A step of the producer is therefore given the calls made so
    far and answers with how it ends and the calls it makes. *)

Module Run.

Definition t (A : Type) : Type := list event -> M A.

Definition ret {A} (a : A) : t A := fun _ => ret a.

(** A step that does not look at what was done before. *)
Definition lift {A} (m : M A) : t A := fun _ => m.

Definition bind {A B} (m : t A) (k : A -> t B) : t B :=
  fun done =>
    match m done with
    | (Normal a, calls) =>
        let (c, more) := k a (done ++ calls) in (c, calls ++ more)
    | (Throw e, calls) => (Throw e, calls)
    | (Diverge, calls) => (Diverge, calls)
    end.

(** [try { body } catch (error) { handler }] *)
Definition try_catch {A} (body : t A) (handler : Error.t -> t A) : t A :=
  fun done =>
    match body done with
    | (Throw e, calls) =>
        let (c, more) := handler e (done ++ calls) in (c, calls ++ more)
    | ended => ended
    end.

(** [try { body } finally { cleanup }]: the cleanup runs when the body
    ends, normally or not, and its own abrupt end replaces the body's. *)
Definition try_finally {A} (body : t A) (cleanup : t unit) : t A :=
  fun done =>
    match body done with
    | (Diverge, calls) => (Diverge, calls)
    | (c, calls) =>
        match cleanup (done ++ calls) with
        | (Normal _, more) => (c, calls ++ more)
        | (Throw e, more) => (Throw e, calls ++ more)
        | (Diverge, more) => (Diverge, calls ++ more)
        end
    end.

(** [items.forEach(f)] *)
Fixpoint forEach {A} (items : list A) (f : A -> t unit) : t unit :=
  match items with
  | [] => ret tt
  | x :: rest => bind (f x) (fun _ => forEach rest f)
  end.

End Run.

Declare Scope run_scope.
Delimit Scope run_scope with run.

Notation "x <- m ;; k" := (Run.bind m (fun x => k))
  (at level 61, m at next level, right associativity) : run_scope.
Notation "m ;; k" := (Run.bind m (fun _ => k))
  (at level 61, right associativity) : run_scope.

(** ** The world outside the producer *)

(** What one [reader.read()] settles with while data lasts: the text
    [decoder.decode(value, { stream: true })] makes of the bytes read,
    or a rejection.  A reader is the list of what its reads will give;
    past the end of the list a read answers [done]. *)
Inductive read_result :=
| Chunk (text : jsstring)
| ReadError (e : Error.t).

Record Response := {
  status : N;
  statusText : jsstring;
  (** [None]: [response.json()] rejects. *)
  json : option Json.value;
  (** [None]: [response.body] is [null]. *)
  body : option (list read_result)
}.

(** [response.ok]: the status is in the range 200 to 299. *)
Definition ok (response : Response) : bool :=
  (200 <=? status response) && (status response <=? 299).

Inductive fetch_result :=
| Resolved (response : Response)
| Rejected (e : Error.t).

Record ChatInput := { message : jsstring }.

(** ** The producer *)

(** [String.prototype.trim]: white space and line terminators are
    dropped at both ends. *)
Fixpoint trimStart (s : jsstring) : jsstring :=
  match s with
  | c :: s' => if is_space c then trimStart s' else s
  | [] => []
  end.

Definition trim (s : jsstring) : jsstring :=
  rev (trimStart (rev (trimStart s))).

(** A string is truthy when it is not empty; [a || b]. *)
Definition truthy (s : jsstring) : bool := negb (JsString.eqb s []).
Definition or_else (a b : jsstring) : jsstring := if truthy a then a else b.

Definition stop : M unit := emit Stop.

(** [await fetch(url, { signal, ..., body })]; the request carries the
    user's message and [stream: true]. *)
Definition fetch (content : jsstring) (upstream : fetch_result) : M Response :=
  emit (Fetch content) ;;
  match upstream with
  | Resolved response => ret response
  | Rejected e => throw e
  end.

(** [v.key], which throws on [null]; the two keys read here are own
    properties of a parsed object or of nothing. *)
Definition get (v : Json.value) (key : string) : M (option Json.value) :=
  match v with
  | Json.Null => throw (Error.TypeError_of_null key)
  | Json.Object fields => ret (Json.lookup fields (js key))
  | _ => ret None
  end.

(** [v?.key] on a value that may be [undefined]. *)
Definition get_opt (v : option Json.value) (key : string)
  : M (option Json.value) :=
  match v with
  | None | Some Json.Null => ret None
  | Some o => get o key
  end.

(** [errorData.error?.message || response.statusText], as the template
    literal renders it. *)
Definition error_detail (response : Response) : M jsstring :=
  (* await response.json().catch(() => ({})) *)
  let errorData := match json response with
                   | Some v => v
                   | None => Json.Object []
                   end in
  error <- get errorData "error" ;;
  msg <- get_opt error "message" ;;
  match msg with
  | Some m =>
      if Json.truthy m then
        match Json.ToString m with
        | Some text => ret text
        | None => throw Error.TypeError_to_primitive
        end
      else ret (statusText response)
  | None => ret (statusText response)
  end.

(** [response.body.getReader()] *)
Definition getReader (response : Response) : M (list read_result) :=
  match body response with
  | Some reader => emit GetReader ;; ret reader
  | None => throw (Error.TypeError_of_null "getReader")
  end.

Definition releaseLock : M unit := emit ReleaseLock.

(** ** The subscriber's queue

    [push] comes from the Repeater the executor is handed to.  A value
    pushed goes to a call of [next] that is waiting for it, or else
    waits in a queue for one; the queue holds no more than
    [MAX_QUEUE_LENGTH] values, and a push that finds it full throws.
    The source never waits for the promise [push] answers with, so
    nothing holds a run back.

    How many values wait depends on the subscriber.  [taken done] is
    the number of calls of [next] the subscriber has made by the time
    the producer has made the calls [done]; a subscriber that has left
    counts as one that takes everything.  [Push] in the calls of a run
    records a call of [push] that returned. *)

Definition MAX_QUEUE_LENGTH : nat := 1024.

Definition RepeaterOverflowError : Error.t :=
  {| Error.name := js "RepeaterOverflowError";
     Error.message :=
       js "No more than 1024 pending calls to push are allowed on a single repeater." |}.

Definition count (p : event -> bool) (t : list event) : nat :=
  List.length (filter p t).

Definition is_push (ev : event) : bool :=
  match ev with Push _ => true | _ => false end.

Section Producer.

Variable taken : list event -> nat.

Definition push (text : jsstring) : Run.t unit :=
  fun done =>
    if (MAX_QUEUE_LENGTH + taken done <=? count is_push done)%nat
    then throw RepeaterOverflowError
    else emit (Push text).

(** The outer [while (true)]: it ends when a read answers [done] and
    gives back the text still held in [messageBuffer]. *)
Fixpoint read_loop (reader : list read_result) (messageBuffer : jsstring)
  : Run.t jsstring :=
  match reader with
  | [] => Run.ret messageBuffer
  | ReadError e :: _ => Run.lift (throw e)
  | Chunk chunk :: reader' =>
      match feed messageBuffer chunk with
      | None => Run.lift diverge
      | Some (segments, messageBuffer') =>
          (Run.forEach segments push ;;
           read_loop reader' messageBuffer')%run
      end
  end.

(** The rest that is pushed when the data has ended. *)
Definition flush (messageBuffer : jsstring) : Run.t unit :=
  if truthy messageBuffer then push messageBuffer else Run.ret tt.

(** The inner [try] block, and the same with its [finally]. *)
Definition read_all (reader : list read_result) : Run.t unit :=
  (messageBuffer <- read_loop reader [] ;;
   flush messageBuffer)%run.

Definition drain (reader : list read_result) : Run.t unit :=
  Run.try_finally (read_all reader) (Run.lift releaseLock).

(** The body of the outer [try].  Its two early [return]s are the two
    [then] branches: nothing follows the [try] statement. *)
Definition attempt (input : ChatInput) (upstream : fetch_result)
  : Run.t unit :=
  if negb (truthy (trim (message input))) then
    (push (js "错误：消息内容不能为空") ;;
     Run.lift stop)%run
  else
    (response <- Run.lift (fetch (message input) upstream) ;;
     if negb (ok response) then
       detail <- Run.lift (error_detail response) ;;
       push (js "API错误: " ++ JsString.of_N (status response)
               ++ js " - " ++ detail) ;;
       Run.lift stop
     else
       reader <- Run.lift (getReader response) ;;
       drain reader)%run.

(** The [catch] block. *)
Definition recover (error : Error.t) : Run.t unit :=
  ((if negb (JsString.eqb (Error.name error) (js "AbortError")) then
      push (js "服务错误: " ++ or_else (Error.message error) (js "未知错误"))
    else Run.ret tt) ;;
   Run.lift stop)%run.

(** The executor handed to [new Repeater]. *)
Definition subscribe (input : ChatInput) (upstream : fetch_result)
  : Run.t unit :=
  Run.try_catch (attempt input upstream) recover.

End Producer.

(** ** The chat mutation

    The resolver that is not streamed: one request, one reply.  It
    ends with the reply it returns or with the error it throws. *)

(** What the engine throws when a property of [undefined] is read. *)
Definition TypeError_of_undefined (property : string) : Error.t :=
  {| Error.name := js "TypeError";
     Error.message := js "Cannot read properties of undefined (reading '"
                        ++ js property ++ js "')" |}.

(** [new Error(text)] *)
Definition new_Error (text : jsstring) : Error.t :=
  {| Error.name := js "Error"; Error.message := text |}.

(** [v[0]] on a value that may be [undefined]: the first item of an
    array, the first code unit of a string, the property ["0"] of an
    object; reading it off [null] or [undefined] throws. *)
Definition first_item (v : option Json.value) : M (option Json.value) :=
  match v with
  | None => throw (TypeError_of_undefined "0")
  | Some Json.Null => throw (Error.TypeError_of_null "0")
  | Some (Json.Array items) => ret (hd_error items)
  | Some (Json.String s) =>
      ret (match s with
           | c :: _ => Some (Json.String [c])
           | [] => None
           end)
  | Some (Json.Object fields) => ret (Json.lookup fields (js "0"))
  | Some _ => ret None
  end.

(** [a || text] where [a] may be [undefined]. *)
Definition value_or (a : option Json.value) (text : jsstring) : Json.value :=
  match a with
  | Some v => if Json.truthy v then v else Json.String text
  | None => Json.String text
  end.

(** The last five steps of the [try] of [chat], from the parsed body
    to the reply. *)
Definition reply_of (data : Json.value) : M Json.value :=
  choices <- get data "choices" ;;
  choice <- first_item choices ;;
  reply <- get_opt choice "message" ;;
  content <- get_opt reply "content" ;;
  ret (value_or content (js "抱歉，没有收到有效回复")).

(** The body of the [try] of [chat].  [syntax_error] is what
    [response.json()] is rejected with when the body of a successful
    response cannot be parsed.  The request differs from the streamed
    one in [stream: false] and in having no abort signal. *)
Definition chat_attempt (input : ChatInput) (upstream : fetch_result)
           (syntax_error : Error.t) : M Json.value :=
  if negb (truthy (trim (message input))) then
    throw (new_Error (js "消息内容不能为空"))
  else
    response <- fetch (message input) upstream ;;
    if negb (ok response) then
      detail <- error_detail response ;;
      throw (new_Error (js "DeepSeek API 错误: "
                          ++ JsString.of_N (status response)
                          ++ js " - " ++ detail))
    else
      data <- match json response with
              | Some v => ret v
              | None => throw syntax_error
              end ;;
      reply_of data.

(** [chat]: the value of the [message] field of what it returns. *)
Definition chat (input : ChatInput) (upstream : fetch_result)
           (syntax_error : Error.t) : M Json.value :=
  try_catch (chat_attempt input upstream syntax_error)
            (fun error =>
               throw (new_Error (js "聊天失败: " ++ Error.message error))).

(** ** The request handler of the worker *)

(** A header list, as [Headers] keeps it: names are compared without
    regard to the case of ASCII letters. *)
Module Headers.

Definition t := list (jsstring * jsstring).

Definition lower (c : N) : N :=
  if (65 <=? c) && (c <=? 90) then c + 32 else c.

Definition same_name (a b : jsstring) : bool :=
  JsString.eqb (map lower a) (map lower b).

(** [h.append(name, value)] *)
Definition append (h : t) (name value : jsstring) : t :=
  h ++ [(name, value)].

Definition remove (h : t) (name : jsstring) : t :=
  filter (fun entry => negb (same_name (fst entry) name)) h.

(** [h.set(name, value)]: the first header of that name takes the
    value and the others of that name go; without one, the header is
    added at the end.  The names and values set in this program are
    valid and have no white space at their ends, so [set] neither
    throws nor trims. *)
Fixpoint set (h : t) (name value : jsstring) : t :=
  match h with
  | [] => [(name, value)]
  | (n, v) :: rest =>
      if same_name n name then (n, value) :: remove rest name
      else (n, v) :: set rest name value
  end.

Fixpoint join (values : list jsstring) : jsstring :=
  match values with
  | [] => []
  | [v] => v
  | v :: rest => v ++ js ", " ++ join rest
  end.

(** [h.get(name)]: the values of that name, joined; [None] is [null]. *)
Definition get (h : t) (name : jsstring) : option jsstring :=
  match filter (fun entry => same_name (fst entry) name) h with
  | [] => None
  | found => Some (join (map snd found))
  end.

(** The header list made from an object literal, key by key. *)
Definition of_record (entries : list (jsstring * jsstring)) : t :=
  fold_left (fun h entry => append h (fst entry) (snd entry)) entries [].

End Headers.

Module Http.

(** A body: none, the body of the response it was taken from, or the
    text [JSON.stringify] makes of a value. *)
Inductive Body :=
| Empty
| Passed (content : jsstring)
| Stringified (v : Json.value).

Record Request := { method : jsstring; url : jsstring }.

Record Response := { status : N; headers : Headers.t; body : Body }.

End Http.

Definition CORS_HEADERS : list (jsstring * jsstring) :=
  [(js "Access-Control-Allow-Origin", js "*");
   (js "Access-Control-Allow-Methods", js "GET, POST, OPTIONS");
   (js "Access-Control-Allow-Headers", js "Content-Type, Authorization, Accept")].

(** What [yoga.fetch(request, { env })] settles with. *)
Inductive yoga_result :=
| Answered (response : Http.Response)
| Failed (e : Error.t).

(** [Object.entries(CORS_HEADERS).forEach(([key, value]) =>
    responseHeaders.set(key, value))] *)
Definition set_each (entries : list (jsstring * jsstring)) (h : Headers.t)
  : Headers.t :=
  fold_left (fun h entry => Headers.set h (fst entry) (snd entry)) entries h.

(** The [fetch] method of the exported object.  Of what its [try]
    holds only the call to yoga can throw. *)
Definition handle (request : Http.Request) (yoga : yoga_result)
  : Http.Response :=
  if JsString.eqb (Http.method request) (js "OPTIONS") then
    {| Http.status := 200;
       Http.headers := Headers.of_record CORS_HEADERS;
       Http.body := Http.Empty |}
  else
    match yoga with
    | Answered response =>
        let responseHeaders := set_each CORS_HEADERS (Http.headers response) in
        let responseHeaders :=
          if JsString.includes (Http.url request) (js "subscription") then
            Headers.set responseHeaders (js "Content-Type")
                        (js "text/event-stream")
          else responseHeaders in
        {| Http.status := Http.status response;
           Http.headers := responseHeaders;
           Http.body := Http.body response |}
    | Failed error =>
        {| Http.status := 500;
           Http.headers :=
             Headers.of_record
               ((js "Content-Type", js "application/json") :: CORS_HEADERS);
           Http.body :=
             Http.Stringified
               (Json.Object [(js "error", Json.String (js "服务器错误"));
                             (js "message",
                              Json.String (Error.message error))]) |}
    end.

(** ** The plain relay

    The worker of [index.js]: it takes a POST with a JSON body, builds
    the list of messages and hands the completion request to the
    upstream, whose answer it passes back. *)

Module Relay.

Definition CORS_HEADERS : list (jsstring * jsstring) :=
  [(js "Access-Control-Allow-Origin", js "*");
   (js "Access-Control-Allow-Methods", js "POST, OPTIONS");
   (js "Access-Control-Allow-Headers", js "Content-Type, Authorization")].

Record Response := {
  status : N;
  statusText : jsstring;
  headers : Headers.t;
  body : Http.Body
}.

(** A request, by its method and by what [request.json()] settles
    with: the parsed body, or the error it is rejected with. *)
Record Request := { method : jsstring; parsed : Error.t + Json.value }.

(** What the upstream [fetch] settles with. *)
Inductive upstream_result :=
| Answers (response : Response)
| Rejects (e : Error.t).

(** The request made upstream: its [Authorization] header and the value
    whose JSON text is its body. *)
Record Call := { authorization : jsstring; sent : Json.value }.

(** A property picked out of a value that is not [null]; [None] is
    [undefined].  The keys read here are own properties of a parsed
    object or of nothing. *)
Definition field (v : Json.value) (key : string) : option Json.value :=
  match v with
  | Json.Object fields => Json.lookup fields (js key)
  | _ => None
  end.

(** [x = fallback] in a destructuring pattern: the default stands in
    for [undefined] only. *)
Definition defaulted (x : option Json.value) (fallback : Json.value)
  : Json.value :=
  match x with
  | Some v => v
  | None => fallback
  end.

(** [Array.isArray(messages) ? messages : Array.isArray(nextMessages) ?
    nextMessages : []] *)
Definition userMessages (messages nextMessages : option Json.value)
  : list Json.value :=
  match messages with
  | Some (Json.Array items) => items
  | _ =>
      match nextMessages with
      | Some (Json.Array items) => items
      | _ => []
      end
  end.

(** A key of an object literal as [JSON.stringify] writes it: left out
    when its value is [undefined]. *)
Definition entry (key : string) (x : option Json.value)
  : list (jsstring * Json.value) :=
  match x with
  | Some v => [(js key, v)]
  | None => []
  end.

(** [m => ({ role: m.role, content: m.content })] *)
Definition pick (m : Json.value) : Error.t + Json.value :=
  match m with
  | Json.Null => inl (Error.TypeError_of_null "role")
  | _ => inr (Json.Object (entry "role" (field m "role")
                             ++ entry "content" (field m "content")))
  end.

(** [userMessages.map(...)], which stops at the first throw. *)
Fixpoint pick_all (items : list Json.value) : Error.t + list Json.value :=
  match items with
  | [] => inr []
  | m :: rest =>
      match pick m with
      | inl e => inl e
      | inr picked =>
          match pick_all rest with
          | inl e => inl e
          | inr more => inr (picked :: more)
          end
      end
  end.

Definition default_system : Json.value :=
  Json.Object [(js "role", Json.String (js "system"));
               (js "content", Json.String (js "You are a helpful assistant."))].

(** [systemMessage || { role: "system", content: ... }] *)
Definition system_or_default (systemMessage : option Json.value) : Json.value :=
  match systemMessage with
  | Some v => if Json.truthy v then v else default_system
  | None => default_system
  end.

Definition json_headers : Headers.t :=
  Headers.of_record ((js "content-type", js "application/json") :: CORS_HEADERS).

(** The answer of the [catch] block; [err?.message || String(err)] is
    the message of the error, or its name when the message is empty. *)
Definition bad_request (err : Error.t) : Response :=
  {| status := 400; statusText := [];
     headers := json_headers;
     body := Http.Stringified
               (Json.Object
                  [(js "errors",
                    Json.Array
                      [Json.Object
                         [(js "message",
                           Json.String (or_else (Error.message err)
                                                (Error.name err)))]])]) |}.

Definition error_response (code : N) (text : string) : Response :=
  {| status := code; statusText := [];
     headers := json_headers;
     body := Http.Stringified
               (Json.Object [(js "error", Json.String (js text))]) |}.

(** [onRequestPost]: the call made upstream, if one was made, and the
    answer.  [key] is [env.DEEPSEEK_API_KEY], [None] when [env] or the
    key is missing. *)
Definition onRequestPost (request : Request) (key : option jsstring)
           (upstream : upstream_result) : option Call * Response :=
  match parsed request with
  | inl err => (None, bad_request err)
  | inr requestBody =>
      (* body || {} *)
      let given := if Json.truthy requestBody then requestBody
                   else Json.Object [] in
      let messages := field given "messages" in
      let nextMessages := field given "nextMessages" in
      let systemMessage := field given "systemMessage" in
      let model := defaulted (field given "model")
                             (Json.String (js "deepseek-chat")) in
      let stream := defaulted (field given "stream") (Json.Bool true) in
      match pick_all (userMessages messages nextMessages) with
      | inl err => (None, bad_request err)
      | inr picked =>
          let finalMessages := system_or_default systemMessage :: picked in
          match key with
          | None => (None, error_response 500 "Missing env.DEEPSEEK_API_KEY")
          | Some secret =>
              if negb (truthy secret) then
                (None, error_response 500 "Missing env.DEEPSEEK_API_KEY")
              else
                let call :=
                  {| authorization := js "Bearer " ++ secret;
                     sent := Json.Object
                               [(js "model", model);
                                (js "messages", Json.Array finalMessages);
                                (js "stream", stream)] |} in
                match upstream with
                | Rejects err => (Some call, bad_request err)
                | Answers upstreamResp =>
                    (Some call,
                     {| status := status upstreamResp;
                        statusText := statusText upstreamResp;
                        headers := set_each CORS_HEADERS (headers upstreamResp);
                        body := body upstreamResp |})
                end
          end
      end
  end.

(** The [fetch] method of the exported object. *)
Definition fetch (request : Request) (key : option jsstring)
           (upstream : upstream_result) : option Call * Response :=
  if JsString.eqb (method request) (js "POST") then
    onRequestPost request key upstream
  else (None, error_response 405 "Only POST is supported").

End Relay.

(** * What the statements speak of *)

(** ** Observations on a trace *)

Definition pushed (t : list event) : list jsstring :=
  flat_map (fun ev => match ev with Push m => [m] | _ => [] end) t.

Definition is_release (ev : event) : bool :=
  match ev with ReleaseLock => true | _ => false end.

Definition is_fetch (ev : event) : bool :=
  match ev with Fetch _ => true | _ => false end.

Definition is_get_reader (ev : event) : bool :=
  match ev with GetReader => true | _ => false end.

(** ** Marks and cuts *)

Definition no_cjk_mark (s : jsstring) : Prop :=
  Forall (fun c => is_cjk_mark c = false) s.

(** [cut buf pos size] lists the two shapes a chosen break can have:
    the first mark of the CJK class of the buffer, alone; or, in a
    buffer without any mark of that class, a Latin mark with the white
    space after it. *)
Inductive cut : jsstring -> nat -> nat -> Prop :=
| cut_cjk pre c tl :
    no_cjk_mark pre -> is_cjk_mark c = true ->
    cut (pre ++ c :: tl) (List.length pre) 1
| cut_latin pre c d tl :
    no_cjk_mark (pre ++ c :: d :: tl) ->
    is_latin_mark c = true -> is_space d = true ->
    cut (pre ++ c :: d :: tl) (List.length pre) 2.

(** [segmentation buf segments rest]: started on [buf], the inner loop
    pushes [segments] onto its array and leaves through its [break]
    with [rest] in the buffer. *)
Inductive segmentation : jsstring -> list jsstring -> jsstring -> Prop :=
| seg_break buf :
    find_break buf = None ->
    segmentation buf [] buf
| seg_cut buf pos size more rest :
    find_break buf = Some (pos, size) ->
    segmentation (JsString.substring_from (pos + size) buf) more rest ->
    segmentation buf (JsString.substring_to (pos + size) buf :: more) rest.

(** A segment ends at a boundary: with a mark of the CJK class, or
    with a Latin mark and one white-space code unit. *)
Definition ends_at_boundary (segment : jsstring) : Prop :=
  (exists pre c, segment = pre ++ [c] /\ is_cjk_mark c = true)
  \/ (exists pre c d, segment = pre ++ [c; d] /\
        is_latin_mark c = true /\ is_space d = true).

Definition well_cut (segment : jsstring) : Prop :=
  (1 <= List.length segment)%nat /\ ends_at_boundary segment.

(** A newline or CJK mark, if any, is the last code unit. *)
Definition closed_at_the_end (segment : jsstring) : Prop :=
  no_cjk_mark (removelast segment).

(** ** Runs of the producer *)

Definition is_stop (ev : event) : bool :=
  match ev with Stop => true | _ => false end.

(** How a run can end once something went wrong: with [stop] alone, or
    with one diagnostic and [stop]. *)
Definition ended (ending : list event) : Prop :=
  ending = [Stop] \/ exists diagnostic, ending = [Push diagnostic; Stop].

(** The calls a run of the producer can make on a message [m]. *)
Inductive run (m : jsstring) : list event -> Prop :=
| run_blank :
    trim m = [] ->
    run m [Push (js "错误：消息内容不能为空"); Stop]
| run_failed ending :
    trim m <> [] -> ended ending ->
    run m (Fetch m :: ending)
| run_streamed segments ending :
    trim m <> [] ->
    Forall (fun segment => (1 <= List.length segment)%nat) segments ->
    ending = [] \/ ended ending ->
    run m (Fetch m :: GetReader :: map Push segments
             ++ ReleaseLock :: ending).

(** ** Chunk after chunk *)

(** [fed buf fragments segments rest]: with [buf] held, the chunks
    [fragments] are read one after the other; [segments] are the pieces
    the passes of the inner loop complete, in order, and [rest] is what
    is held when the last chunk has been through. *)
Inductive fed : jsstring -> list jsstring -> list jsstring -> jsstring -> Prop :=
| fed_done buf : fed buf [] [] buf
| fed_chunk buf chunk fragments segments held more rest :
    feed buf chunk = Some (segments, held) ->
    fed held fragments more rest ->
    fed buf (chunk :: fragments) (segments ++ more) rest.

(** ** Room in the queue *)

(** A subscriber that leaves room for the first [n] values of a run: as
    long as fewer than [n] calls of [push] have been made, the next one
    does not find the queue full. *)
Definition room_for (taken : list event -> nat) (n : nat) : Prop :=
  forall done,
    (count is_push done < n)%nat ->
    (count is_push done < MAX_QUEUE_LENGTH + taken done)%nat.

(** The subscriber as it is when the executor starts: it has asked for
    one value, which is what started the executor, and asks for the next
    only when it has been given that one and has dealt with it. *)
Definition asked_once : list event -> nat := fun _ => 1%nat.

(** ** Text of one script *)

(** No Latin mark with white space after it. *)
Definition no_latin_boundary (s : jsstring) : Prop :=
  forall pre c d tl,
    s = pre ++ c :: d :: tl -> is_latin_mark c && is_space d = false.

Definition one_rule (s : jsstring) : Prop :=
  no_cjk_mark s \/ no_latin_boundary s.

(** ** Headers of a name *)

Definition named (name : jsstring) (entry : jsstring * jsstring) : bool :=
  Headers.same_name (fst entry) name.

(** ** Messages as the relay sends them *)

(** A message object and what is left of it when only its role and its
    content are kept. *)
Definition stripped (m kept : Json.value) : Prop :=
  exists fields role content,
    m = Json.Object fields /\
    Json.lookup fields (js "role") = Some role /\
    Json.lookup fields (js "content") = Some content /\
    kept = Json.Object [(js "role", role); (js "content", content)].

(** ** Sample values *)

Definition sample_post : Relay.Request :=
  {| Relay.method := js "POST";
     Relay.parsed :=
       inr (Json.Object
              [(js "messages",
                Json.Array
                  [Json.Object [(js "role", Json.String (js "user"));
                                (js "content", Json.String (js "hi"));
                                (js "id", Json.String (js "m1"))]])]) |}.

Definition sample_call : Relay.Call :=
  {| Relay.authorization := js "Bearer " ++ js "sk";
     Relay.sent :=
       Json.Object
         [(js "model", Json.String (js "deepseek-chat"));
          (js "messages",
           Json.Array
             [Relay.default_system;
              Json.Object [(js "role", Json.String (js "user"));
                           (js "content", Json.String (js "hi"))]]);
          (js "stream", Json.Bool true)] |}.

Definition sample_upstream : Relay.Response :=
  {| Relay.status := 200; Relay.statusText := js "OK";
     Relay.headers := [(js "content-type", js "text/event-stream");
                       (js "X-Request-Id", js "7")];
     Relay.body := Http.Passed (js "data: {}") |}.

Definition sample_input : ChatInput := {| message := js "hi" |}.

Definition sample_failure : Error.t :=
  {| Error.name := js "TypeError"; Error.message := js "network error" |}.

Definition sample_stream (reader : list read_result) : Response :=
  {| status := 200; statusText := js "OK"; json := None;
     body := Some reader |}.

Definition sample_completion (choices : list Json.value) : Response :=
  {| status := 200; statusText := js "OK";
     json := Some (Json.Object [(js "id", Json.String (js "c1"));
                                (js "choices", Json.Array choices)]);
     body := None |}.

Definition sample_answer : Http.Response :=
  {| Http.status := 200;
     Http.headers := [(js "content-type", js "application/json");
                      (js "X-Request-Id", js "7")];
     Http.body := Http.Passed (js "{}") |}.

Definition sample_refusal (payload : option Json.value) : Response :=
  {| status := 429; statusText := js "Too Many Requests";
     json := payload; body := None |}.

(** * Properties *)

(** ** Literals and first runs *)

Example js_ascii : js "Hi. " = [72; 105; 46; 32].
Proof. reflexivity. Qed.

Example js_cjk : js "你好。" = [20320; 22909; 12290].
Proof. reflexivity. Qed.

Example js_status : JsString.of_N 401 = js "401".
Proof. reflexivity. Qed.

Example feed_two_sentences :
  feed [] (js "你好。世界！") = Some ([js "你好。"; js "世界！"], []).
Proof. reflexivity. Qed.

Example feed_mixed :
  feed [] (js "Hi. 你好。") = Some ([js "Hi. 你好。"], []).
Proof. reflexivity. Qed.

Example unpunctuated_text_is_flushed :
  read_all asked_once [Chunk (js "abc"); Chunk (js "def")] []
  = (Normal tt, [Push (js "abcdef")]).
Proof. reflexivity. Qed.

Example array_in_a_template :
  Json.ToString (Json.Array [Json.String (js "a"); Json.Null;
                             Json.Array [Json.Bool true; Json.Object []]])
  = Some (js "a,,true,[object Object]").
Proof. reflexivity. Qed.

Example shadowed_toString_in_a_template :
  Json.ToString (Json.Object [(js "toString", Json.Bool true)]) = None /\
  Json.ToString (Json.Array [Json.Object [(js "toString", Json.Null)]]) = None.
Proof. split; reflexivity. Qed.

Example newline_is_cut_by_the_cjk_rule :
  feed (js "line one") [10; 110; 101; 120; 116]
  = Some ([js "line one" ++ [10]], js "next").
Proof. reflexivity. Qed.

(** ** Leftmost matches *)

Lemma skipn_length_app (A : Type) (a b : list A) :
  skipn (List.length a) (a ++ b) = b.
Proof. induction a; simpl; auto. Qed.

Lemma String_match_cons (re : pattern) (c : N) (s : jsstring) :
  String_match (c :: s) re
  = match re (c :: s) with
    | Some n => Some {| index := 0; matched := firstn n (c :: s) |}
    | None =>
        match String_match s re with
        | Some m => Some {| index := S (index m); matched := matched m |}
        | None => None
        end
    end.
Proof. reflexivity. Qed.

Lemma String_match_leftmost (re : pattern) (s : jsstring) (m : result) :
  String_match s re = Some m ->
  exists pre suf n,
    s = pre ++ suf /\ List.length pre = index m /\
    re suf = Some n /\ matched m = firstn n suf /\
    forall k, (k < index m)%nat -> re (skipn k s) = None.
Proof.
  revert m. induction s as [|c s IH]; intros m; simpl.
  - destruct (re []) as [n|] eqn:E; [|discriminate].
    intros [= <-]. exists [], [], n. simpl. repeat split; auto.
    intros k Hk. inversion Hk.
  - destruct (re (c :: s)) as [n|] eqn:E.
    + intros [= <-]. exists [], (c :: s), n. simpl. repeat split; auto.
      intros k Hk. inversion Hk.
    + destruct (String_match s re) as [m'|] eqn:E'; [|discriminate].
      intros [= <-]. simpl.
      destruct (IH m' eq_refl) as (pre & suf & n & -> & Hlen & Hre & Hm & Hleft).
      exists (c :: pre), suf, n. simpl. repeat split; auto.
      intros [|k] Hk; simpl; [exact E|]. apply Hleft. lia.
Qed.

Lemma String_match_none (re : pattern) (s : jsstring) :
  String_match s re = None -> forall k, re (skipn k s) = None.
Proof.
  induction s as [|c s IH]; simpl.
  - destruct (re []) eqn:E; [discriminate|]. intros _ [|k]; exact E.
  - destruct (re (c :: s)) eqn:E; [discriminate|].
    destruct (String_match s re) eqn:E'; [discriminate|].
    intros _ [|k]; simpl; auto.
Qed.

Lemma cjk_re_inv (s : jsstring) (n : nat) :
  cjk_re s = Some n ->
  n = 1%nat /\ exists c tl, s = c :: tl /\ is_cjk_mark c = true.
Proof.
  unfold cjk_re, class. destruct s as [|c tl]; [discriminate|].
  destruct (is_cjk_mark c) eqn:E; [|discriminate].
  intros [= <-]. split; [reflexivity|]. now exists c, tl.
Qed.

Lemma en_re_inv (s : jsstring) (n : nat) :
  en_re s = Some n ->
  (n = 2%nat /\ exists c d tl,
      s = c :: d :: tl /\ is_latin_mark c = true /\ is_space d = true)
  \/ (n = 1%nat /\ exists tl, s = newline :: tl).
Proof.
  unfold en_re, alt, class2, class.
  destruct s as [|c [|d tl]]; try discriminate.
  - destruct (N.eqb_spec newline c); [|discriminate].
    intros [= <-]. right. split; [reflexivity|]. exists []. now subst.
  - destruct (is_latin_mark c && is_space d) eqn:E.
    + intros [= <-]. left. split; [reflexivity|].
      apply andb_true_iff in E. destruct E. now exists c, d, tl.
    + destruct (N.eqb_spec newline c); [|discriminate].
      intros [= <-]. right. split; [reflexivity|]. exists (d :: tl). now subst.
Qed.

Lemma cjk_absent (s : jsstring) :
  String_match s cjk_re = None -> no_cjk_mark s.
Proof.
  intros H. pose proof (String_match_none _ _ H) as Hnone.
  apply Forall_forall. intros x Hx.
  destruct (in_split _ _ Hx) as (pre & tl & ->).
  specialize (Hnone (List.length pre)).
  rewrite skipn_length_app in Hnone.
  unfold cjk_re, class in Hnone.
  destruct (is_cjk_mark x); [discriminate|reflexivity].
Qed.

Lemma cjk_leftmost (pre suf : jsstring) (c : N) :
  no_cjk_mark pre -> is_cjk_mark c = true ->
  String_match (pre ++ c :: suf) cjk_re
  = Some {| index := List.length pre; matched := [c] |}.
Proof.
  intros Hpre Hc. induction Hpre as [|x pre Hx _ IH].
  - simpl. unfold cjk_re, class. now rewrite Hc.
  - rewrite <- app_comm_cons, String_match_cons.
    replace (cjk_re (x :: pre ++ c :: suf)) with (@None nat)
      by (unfold cjk_re, class; now rewrite Hx).
    rewrite IH. reflexivity.
Qed.

(** ** Where the buffer is cut *)

Lemma no_cjk_mark_prefix (a b : jsstring) :
  no_cjk_mark (a ++ b) -> no_cjk_mark a.
Proof. intros H. apply Forall_app in H. tauto. Qed.

Lemma find_break_cut (buf : jsstring) (pos size : nat) :
  find_break buf = Some (pos, size) -> cut buf pos size.
Proof.
  unfold find_break.
  destruct (String_match buf cjk_re) as [m|] eqn:Ecjk.
  - intros [= <- <-].
    destruct (String_match_leftmost _ _ _ Ecjk)
      as (pre & suf & n & -> & Hlen & Hre & _ & Hleft).
    apply cjk_re_inv in Hre. destruct Hre as (_ & c & tl & -> & Hc).
    rewrite <- Hlen. constructor; auto.
    apply Forall_forall. intros x Hx.
    destruct (in_split _ _ Hx) as (p1 & p2 & ->).
    specialize (Hleft (List.length p1)).
    rewrite <- app_assoc, skipn_length_app in Hleft.
    rewrite <- Hlen, length_app in Hleft. simpl in Hleft.
    specialize (Hleft ltac:(lia)).
    unfold cjk_re, class in Hleft. simpl in Hleft.
    destruct (is_cjk_mark x); [discriminate|reflexivity].
  - destruct (String_match buf en_re) as [m|] eqn:Een; [|discriminate].
    intros [= <- <-].
    pose proof (cjk_absent _ Ecjk) as Hno.
    destruct (String_match_leftmost _ _ _ Een)
      as (pre & suf & n & -> & Hlen & Hre & Hm & _).
    rewrite Hm. rewrite <- Hlen.
    apply en_re_inv in Hre.
    destruct Hre as [(-> & c & d & tl & -> & Hc & Hd) | (-> & tl & ->)].
    + simpl. now constructor.
    + exfalso. apply Forall_app in Hno. destruct Hno as [_ Hno].
      inversion Hno as [|? ? Hnl _]. discriminate Hnl.
Qed.

Lemma cut_bounds (buf : jsstring) (pos size : nat) :
  cut buf pos size ->
  (1 <= pos + size <= List.length buf)%nat /\
  List.length (JsString.substring_to (pos + size) buf) = (pos + size)%nat /\
  (List.length (JsString.substring_from (pos + size) buf)
   < List.length buf)%nat.
Proof.
  unfold JsString.substring_to, JsString.substring_from.
  intros H. assert (Hb : (1 <= pos + size <= List.length buf)%nat).
  { destruct H; rewrite length_app; simpl; lia. }
  split; [exact Hb|]. split.
  - apply firstn_length_le. lia.
  - rewrite length_skipn. lia.
Qed.

(** ** The inner loop *)

Lemma scan_sound (fuel : nat) :
  forall segments buf segments' rest,
    scan fuel segments buf = Some (segments', rest) ->
    exists more, segments' = segments ++ more /\ segmentation buf more rest.
Proof.
  induction fuel as [|fuel IH]; intros segments buf segments' rest; simpl.
  - discriminate.
  - destruct (find_break buf) as [[pos size]|] eqn:E.
    + intros H. apply IH in H. destruct H as (more & -> & Hseg).
      exists (JsString.substring_to (pos + size) buf :: more). split.
      * now rewrite <- app_assoc.
      * econstructor; eauto.
    + intros [= <- <-]. exists []. split; [now rewrite app_nil_r|].
      now constructor.
Qed.

Lemma scan_enough (buf : jsstring) (more : list jsstring) (rest : jsstring) :
  segmentation buf more rest ->
  forall fuel segments,
    (List.length buf < fuel)%nat ->
    scan fuel segments buf = Some (segments ++ more, rest).
Proof.
  induction 1 as [buf E | buf pos size more rest E _ IH];
    intros [|fuel] segments Hfuel; try lia; simpl; rewrite E.
  - now rewrite app_nil_r.
  - rewrite IH.
    + now rewrite <- app_assoc.
    + apply find_break_cut, cut_bounds in E. lia.
Qed.

Lemma segmentation_exists (buf : jsstring) :
  exists segments rest, segmentation buf segments rest.
Proof.
  remember (List.length buf) as n eqn:Hn.
  revert buf Hn. induction n as [n IH] using lt_wf_ind. intros buf ->.
  destruct (find_break buf) as [[pos size]|] eqn:E.
  - pose proof (find_break_cut _ _ _ E) as Hcut.
    apply cut_bounds in Hcut. destruct Hcut as (_ & _ & Hlt).
    destruct (IH _ Hlt _ eq_refl) as (more & rest & Hseg).
    eexists _, rest. econstructor; eauto.
  - exists [], buf. now constructor.
Qed.

Lemma segmentation_functional (buf : jsstring) s1 r1 :
  segmentation buf s1 r1 ->
  forall s2 r2, segmentation buf s2 r2 -> s1 = s2 /\ r1 = r2.
Proof.
  induction 1 as [buf E | buf pos size more rest E _ IH]; intros s2 r2 H2;
    inversion H2 as [? E2 | ? pos2 size2 more2 rest2 E2 H2']; subst;
    try congruence; auto.
  rewrite E in E2. injection E2 as <- <-.
  destruct (IH _ _ H2') as [-> ->]. auto.
Qed.

Lemma segmentation_concat (buf : jsstring) segments rest :
  segmentation buf segments rest -> List.concat segments ++ rest = buf.
Proof.
  induction 1 as [buf E | buf pos size more rest E _ IH]; simpl; auto.
  rewrite <- app_assoc, IH. apply firstn_skipn.
Qed.

Lemma segmentation_rest (buf : jsstring) segments rest :
  segmentation buf segments rest -> find_break rest = None.
Proof. induction 1; auto. Qed.

Lemma segmentation_nonempty (buf : jsstring) segments rest :
  segmentation buf segments rest ->
  Forall (fun segment => (1 <= List.length segment)%nat) segments.
Proof.
  induction 1 as [buf E | buf pos size more rest E _ IH]; constructor; auto.
  apply find_break_cut, cut_bounds in E. lia.
Qed.

Lemma segmentation_steps (buf : jsstring) segments rest :
  segmentation buf segments rest ->
  (List.length segments + List.length rest <= List.length buf)%nat.
Proof.
  induction 1 as [buf E | buf pos size more rest E _ IH]; simpl; [lia|].
  apply find_break_cut, cut_bounds in E. lia.
Qed.

Lemma cut_ends_at_boundary (buf : jsstring) (pos size : nat) :
  cut buf pos size ->
  ends_at_boundary (JsString.substring_to (pos + size) buf).
Proof.
  unfold JsString.substring_to.
  intros [pre c tl Hpre Hc | pre c d tl Hno Hc Hd];
    rewrite firstn_app_2; simpl; [left|right]; eauto.
  exists pre, c, d. auto.
Qed.

Lemma segmentation_boundary (buf : jsstring) segments rest :
  segmentation buf segments rest -> Forall ends_at_boundary segments.
Proof.
  induction 1 as [buf E | buf pos size more rest E _ IH]; constructor; auto.
  apply cut_ends_at_boundary, find_break_cut, E.
Qed.

Lemma feed_segmentation (messageBuffer chunk : jsstring) :
  exists segments rest,
    feed messageBuffer chunk = Some (segments, rest) /\
    segmentation (messageBuffer ++ chunk) segments rest.
Proof.
  destruct (segmentation_exists (messageBuffer ++ chunk)) as (segs & rest & H).
  exists segs, rest. split; [|exact H].
  unfold feed. now rewrite (scan_enough _ _ _ H) by lia.
Qed.

Lemma feed_sound (messageBuffer chunk : jsstring) segments rest :
  feed messageBuffer chunk = Some (segments, rest) ->
  segmentation (messageBuffer ++ chunk) segments rest.
Proof.
  unfold feed. intros H. apply scan_sound in H.
  destruct H as (more & -> & H). exact H.
Qed.

(** ** Chunk after chunk *)

Lemma fed_exists (fragments : list jsstring) :
  forall buf, exists segments rest, fed buf fragments segments rest.
Proof.
  induction fragments as [|chunk fragments IH]; intros buf.
  - exists [], buf. constructor.
  - destruct (feed_segmentation buf chunk) as (segs & held & E & _).
    destruct (IH held) as (more & rest & H).
    exists (segs ++ more), rest. econstructor; eauto.
Qed.

Lemma fed_functional buf fragments s1 r1 :
  fed buf fragments s1 r1 ->
  forall s2 r2, fed buf fragments s2 r2 -> s1 = s2 /\ r1 = r2.
Proof.
  induction 1 as [buf | buf chunk fragments segs held more rest E _ IH];
    intros s2 r2 H2; inversion H2; subst; [now split|].
  match goal with
  | E2 : feed buf chunk = Some _ |- _ =>
      rewrite E in E2; injection E2 as <- <-
  end.
  match goal with
  | H : fed held fragments _ _ |- _ => destruct (IH _ _ H) as [-> ->]
  end.
  now split.
Qed.

Lemma fed_concat buf fragments segments rest :
  fed buf fragments segments rest ->
  List.concat segments ++ rest = buf ++ List.concat fragments.
Proof.
  induction 1 as [buf | buf chunk fragments segs held more rest E _ IH]; simpl.
  - now rewrite app_nil_r.
  - apply feed_sound, segmentation_concat in E.
    now rewrite concat_app, <- app_assoc, IH, !app_assoc, E.
Qed.

Lemma fed_steps buf fragments segments rest :
  fed buf fragments segments rest ->
  (List.length segments + List.length rest
   <= List.length buf + List.length (List.concat fragments))%nat.
Proof.
  induction 1 as [buf | buf chunk fragments segs held more rest E _ IH]; simpl.
  - lia.
  - apply feed_sound, segmentation_steps in E.
    rewrite !length_app in *. lia.
Qed.

Lemma fed_rest buf fragments segments rest :
  fed buf fragments segments rest ->
  find_break buf = None -> find_break rest = None.
Proof.
  induction 1 as [buf | buf chunk fragments segs held more rest E _ IH]; auto.
  intros _. apply IH. apply feed_sound, segmentation_rest in E. exact E.
Qed.

Lemma fed_each (P : jsstring -> Prop) :
  (forall buf segments rest,
      segmentation buf segments rest -> Forall P segments) ->
  forall buf fragments segments rest,
    fed buf fragments segments rest -> Forall P segments.
Proof.
  intros HP. induction 1 as [buf | buf chunk fragments segs held more rest E _ IH].
  - constructor.
  - apply Forall_app. split; [|exact IH].
    apply feed_sound in E. eapply HP; eauto.
Qed.

(** ** Steps of a run *)

Lemma bind_Normal {A B} (m : Run.t A) (k : A -> Run.t B)
      (done : list event) (a : A) (calls : list event) :
  m done = (Normal a, calls) ->
  Run.bind m k done
  = (outcome (k a (done ++ calls)), calls ++ trace (k a (done ++ calls))).
Proof.
  unfold Run.bind. intros ->. now destruct (k a (done ++ calls)).
Qed.

Lemma bind_Throw {A B} (m : Run.t A) (k : A -> Run.t B)
      (done : list event) (e : Error.t) (calls : list event) :
  m done = (Throw e, calls) -> Run.bind m k done = (Throw e, calls).
Proof. unfold Run.bind. now intros ->. Qed.

Lemma count_app (p : event -> bool) (t1 t2 : list event) :
  count p (t1 ++ t2) = (count p t1 + count p t2)%nat.
Proof. unfold count. now rewrite filter_app, length_app. Qed.

Lemma count_pushes (p : event -> bool) (segments : list jsstring) :
  (forall m, p (Push m) = false) -> count p (map Push segments) = 0%nat.
Proof.
  intros Hp. unfold count.
  induction segments as [|x rest IH]; simpl; [|rewrite Hp]; auto.
Qed.

Lemma count_is_push (segments : list jsstring) :
  count is_push (map Push segments) = List.length segments.
Proof.
  unfold count. induction segments as [|x rest IH]; simpl; congruence.
Qed.

Lemma pushed_map_Push (segments : list jsstring) :
  pushed (map Push segments) = segments.
Proof.
  unfold pushed. induction segments as [|x rest IH]; simpl; congruence.
Qed.


(** ** The queue *)

Lemma room_for_less (taken : list event -> nat) (n m : nat) :
  room_for taken n -> (m <= n)%nat -> room_for taken m.
Proof. intros H Hle done Hlt. apply H. lia. Qed.

Lemma asked_once_room : room_for asked_once (MAX_QUEUE_LENGTH + 1).
Proof. intros done H. exact H. Qed.

(** Whatever the subscriber does, the queue has room for the first
    [MAX_QUEUE_LENGTH] values. *)
Lemma room_for_few (taken : list event -> nat) (n : nat) :
  (n <=? MAX_QUEUE_LENGTH)%nat = true -> room_for taken n.
Proof. intros H done Hlt. apply Nat.leb_le in H. lia. Qed.

Section Queue.

Variable taken : list event -> nat.

Lemma push_room (text : jsstring) (done : list event) :
  (count is_push done < MAX_QUEUE_LENGTH + taken done)%nat ->
  push taken text done = (Normal tt, [Push text]).
Proof.
  intros H. unfold push.
  destruct (Nat.leb_spec (MAX_QUEUE_LENGTH + taken done) (count is_push done));
    [lia|reflexivity].
Qed.

Lemma push_full (text : jsstring) (done : list event) :
  (MAX_QUEUE_LENGTH + taken done <= count is_push done)%nat ->
  push taken text done = (Throw RepeaterOverflowError, []).
Proof.
  intros H. unfold push.
  destruct (Nat.leb_spec (MAX_QUEUE_LENGTH + taken done) (count is_push done));
    [reflexivity|lia].
Qed.

(** The first value of a run always finds room. *)
Lemma push_first (text : jsstring) (done : list event) :
  count is_push done = 0%nat ->
  push taken text done = (Normal tt, [Push text]).
Proof. intros H. apply push_room. rewrite H. unfold MAX_QUEUE_LENGTH. lia. Qed.

Lemma push_any (text : jsstring) (done : list event) :
  push taken text done = (Normal tt, [Push text])
  \/ push taken text done = (Throw RepeaterOverflowError, []).
Proof.
  destruct (Nat.leb_spec (MAX_QUEUE_LENGTH + taken done) (count is_push done)).
  - right. now apply push_full.
  - left. now apply push_room.
Qed.

(** [segments.forEach(segment => push(...))] pushes the segments in
    order until one finds the queue full. *)
Lemma forEach_push_any (segments : list jsstring) :
  forall done,
  exists c sent later,
    Run.forEach segments (push taken) done = (c, map Push sent) /\
    segments = sent ++ later /\
    (c = Normal tt /\ later = [] \/ c = Throw RepeaterOverflowError).
Proof.
  induction segments as [|x rest IH]; intros done.
  - exists (Normal tt), [], []. repeat split. now left.
  - simpl. destruct (push_any x done) as [E | E].
    + rewrite (bind_Normal _ _ _ _ _ E).
      destruct (IH (done ++ [Push x])) as (c & sent & later & -> & -> & H).
      exists c, (x :: sent), later. repeat split. exact H.
    + rewrite (bind_Throw _ _ _ _ _ E).
      exists (Throw RepeaterOverflowError), [], (x :: rest).
      repeat split. now right.
Qed.

Lemma forEach_push_room (segments : list jsstring) :
  forall done,
    room_for taken (count is_push done + List.length segments) ->
    Run.forEach segments (push taken) done = (Normal tt, map Push segments).
Proof.
  induction segments as [|x rest IH]; intros done Hroom; [reflexivity|].
  cbn [List.length Run.forEach] in *.
  rewrite (bind_Normal _ _ _ _ _ (push_room x done (Hroom done ltac:(lia)))).
  rewrite IH; [reflexivity|].
  rewrite count_app. change (count is_push [Push x]) with 1%nat.
  eapply room_for_less; [exact Hroom|lia].
Qed.

(** Past the values that find room, the next one makes [forEach]
    throw, and the ones after it are never pushed. *)
Lemma forEach_push_overflow (sent : list jsstring) (x : jsstring)
      (later : list jsstring) :
  forall done,
    room_for taken (count is_push done + List.length sent) ->
    (MAX_QUEUE_LENGTH + taken (done ++ map Push sent)
     <= count is_push done + List.length sent)%nat ->
    Run.forEach (sent ++ x :: later) (push taken) done
    = (Throw RepeaterOverflowError, map Push sent).
Proof.
  induction sent as [|y sent IH]; intros done Hroom Hfull;
    cbn [List.length Run.forEach app map] in *.
  - rewrite app_nil_r in Hfull.
    now rewrite (bind_Throw _ _ _ _ _ (push_full x done ltac:(lia))).
  - rewrite (bind_Normal _ _ _ _ _ (push_room y done (Hroom done ltac:(lia)))).
    rewrite IH; [reflexivity| |].
    + rewrite count_app. change (count is_push [Push y]) with 1%nat.
      eapply room_for_less; [exact Hroom|lia].
    + rewrite <- app_assoc, count_app.
      change (count is_push [Push y]) with 1%nat.
      change ([Push y] ++ map Push sent) with (Push y :: map Push sent). lia.
Qed.

(** ** The read loop *)

Lemma segmentation_well_cut (buf : jsstring) segments rest :
  segmentation buf segments rest -> Forall well_cut segments.
Proof.
  intros H. pose proof (segmentation_nonempty _ _ _ H) as H1.
  pose proof (segmentation_boundary _ _ _ H) as H2.
  clear H. induction H1; inversion H2; subst; constructor; auto.
  split; auto.
Qed.

Lemma well_cut_length (segments : list jsstring) :
  Forall well_cut segments ->
  Forall (fun segment => (1 <= List.length segment)%nat) segments.
Proof. apply Forall_impl. now intros ? [? _]. Qed.

(** With room for what the text completes, the loop ends normally and
    has pushed all of it. *)
Lemma read_loop_room buf fragments segments rest :
  fed buf fragments segments rest ->
  forall done,
    room_for taken (count is_push done + List.length segments) ->
    read_loop taken (map Chunk fragments) buf done
    = (Normal rest, map Push segments).
Proof.
  induction 1 as [buf | buf chunk fragments segs held more rest E _ IH];
    intros done Hroom; [reflexivity|].
  simpl. rewrite E. rewrite length_app in Hroom.
  assert (Hsegs : room_for taken (count is_push done + List.length segs))
    by (eapply room_for_less; [exact Hroom|lia]).
  rewrite (bind_Normal _ _ _ _ _ (forEach_push_room segs done Hsegs)).
  rewrite IH.
  - cbn [outcome trace fst snd]. now rewrite map_app.
  - rewrite count_app, count_is_push.
    eapply room_for_less; [exact Hroom|lia].
Qed.

(** A read that is rejected after some reads that gave text: the loop
    throws, having pushed what the text before had completed. *)
Lemma read_loop_rejected buf fragments segments rest
      (e : Error.t) (later : list read_result) :
  fed buf fragments segments rest ->
  forall done,
    room_for taken (count is_push done + List.length segments) ->
    read_loop taken (map Chunk fragments ++ ReadError e :: later) buf done
    = (Throw e, map Push segments).
Proof.
  induction 1 as [buf | buf chunk fragments segs held more rest E _ IH];
    intros done Hroom; [reflexivity|].
  simpl. rewrite E. rewrite length_app in Hroom.
  assert (Hsegs : room_for taken (count is_push done + List.length segs))
    by (eapply room_for_less; [exact Hroom|lia]).
  rewrite (bind_Normal _ _ _ _ _ (forEach_push_room segs done Hsegs)).
  rewrite IH.
  - cbn [outcome trace fst snd]. now rewrite map_app.
  - rewrite count_app, count_is_push.
    eapply room_for_less; [exact Hroom|lia].
Qed.

(** Whatever the reads give and whatever room there is, the loop ends,
    and what it has pushed are pieces the inner loop completed. *)
Lemma read_loop_any (P : jsstring -> Prop) :
  (forall buf segments rest,
      segmentation buf segments rest -> Forall P segments) ->
  forall reader messageBuffer done,
  exists c sent,
    read_loop taken reader messageBuffer done = (c, map Push sent) /\
    Forall P sent /\
    c <> Diverge /\
    (find_break messageBuffer = None ->
     forall rest, c = Normal rest -> find_break rest = None) /\
    (forall e, c = Throw e ->
               e = RepeaterOverflowError \/ In (ReadError e) reader).
Proof.
  intros HP. induction reader as [|[chunk|e] reader IH]; intros buf done.
  - exists (Normal buf), []. repeat split; auto; try discriminate.
    now intros Hb rest [= <-].
  - simpl. destruct (feed_segmentation buf chunk) as (segs & held & -> & Hseg).
    pose proof (HP _ _ _ Hseg) as Hsegs.
    destruct (forEach_push_any segs done)
      as (c1 & sent & later & E1 & -> & [(-> & ->) | ->]).
    + rewrite (bind_Normal _ _ _ _ _ E1).
      destruct (IH held (done ++ map Push sent))
        as (c & sent' & -> & Hsent' & Hc & Hrest & Hthrow).
      exists c, (sent ++ sent'). cbn [outcome trace fst snd].
      rewrite app_nil_r in Hsegs. rewrite map_app.
      split; [reflexivity|]. split; [now apply Forall_app|].
      split; [exact Hc|]. split.
      * intros _. apply Hrest. eapply segmentation_rest; eauto.
      * intros e He. destruct (Hthrow e He); [now left|right; now right].
    + rewrite (bind_Throw _ _ _ _ _ E1).
      exists (Throw RepeaterOverflowError), sent.
      apply Forall_app in Hsegs.
      repeat split; try tauto; try discriminate.
      intros e [= <-]. now left.
  - exists (Throw e), []. repeat split; auto; try discriminate.
    intros e' [= <-]. right. now left.
Qed.

Lemma flush_room (rest : jsstring) (done : list event) :
  (count is_push done < MAX_QUEUE_LENGTH + taken done)%nat ->
  flush taken rest done
  = (Normal tt, match rest with [] => [] | _ => [Push rest] end).
Proof.
  intros H. destruct rest as [|x rest]; [reflexivity|].
  change (flush taken (x :: rest) done) with (push taken (x :: rest) done).
  now apply push_room.
Qed.

Lemma flush_any (rest : jsstring) (done : list event) :
  exists c sent,
    flush taken rest done = (c, map Push sent) /\
    (sent = [] \/ sent = [rest] /\ rest <> []) /\
    (c = Normal tt \/ c = Throw RepeaterOverflowError).
Proof.
  destruct rest as [|x rest].
  - exists (Normal tt), []. repeat split; auto.
  - change (flush taken (x :: rest) done) with (push taken (x :: rest) done).
    destruct (push_any (x :: rest) done) as [-> | ->].
    + exists (Normal tt), [x :: rest]. repeat split; auto.
      right. split; [reflexivity|discriminate].
    + exists (Throw RepeaterOverflowError), []. repeat split; auto.
Qed.

(** The inner [try] block, on any reader. *)
Lemma read_all_any (P : jsstring -> Prop) :
  (forall buf segments rest,
      segmentation buf segments rest -> Forall P segments) ->
  (forall rest, rest <> [] -> find_break rest = None -> P rest) ->
  forall reader done,
  exists c sent,
    read_all taken reader done = (c, map Push sent) /\
    Forall P sent /\
    c <> Diverge /\
    (forall e, c = Throw e ->
               e = RepeaterOverflowError \/ In (ReadError e) reader).
Proof.
  intros HP Hrest reader done. unfold read_all.
  destruct (read_loop_any P HP reader [] done)
    as (c & sent & E & Hsent & Hc & Hheld & Hthrow).
  destruct c as [rest|e|]; [| |congruence].
  - rewrite (bind_Normal _ _ _ _ _ E).
    destruct (flush_any rest (done ++ map Push sent))
      as (c' & last & -> & Hlast & Hc').
    exists c', (sent ++ last). cbn [outcome trace fst snd].
    rewrite map_app. split; [reflexivity|]. split; [|split].
    + apply Forall_app. split; [exact Hsent|].
      destruct Hlast as [-> | (-> & Hne)]; constructor; auto.
    + destruct Hc' as [-> | ->]; discriminate.
    + intros e He. destruct Hc' as [-> | ->]; [discriminate|].
      injection He as <-. now left.
  - rewrite (bind_Throw _ _ _ _ _ E). exists (Throw e), sent.
    split; [reflexivity|]. split; [exact Hsent|].
    split; [discriminate|]. intros e' [= <-]. now apply Hthrow.
Qed.

Lemma read_all_room fragments segments rest :
  fed [] fragments segments rest ->
  forall done,
    room_for taken (count is_push done + List.length segments
                    + List.length rest) ->
    read_all taken (map Chunk fragments) done
    = (Normal tt,
       map Push (segments ++ match rest with [] => [] | _ => [rest] end)).
Proof.
  intros Hfed done Hroom. unfold read_all.
  assert (Hsegs : room_for taken (count is_push done + List.length segments))
    by (eapply room_for_less; [exact Hroom|lia]).
  rewrite (bind_Normal _ _ _ _ _ (read_loop_room _ _ _ _ Hfed done Hsegs)).
  destruct rest as [|x rest]; cbn [outcome trace fst snd].
  - now rewrite !app_nil_r.
  - rewrite flush_room; [now rewrite map_app|].
    apply Hroom. rewrite count_app, count_is_push. simpl. lia.
Qed.

(** The inner [try] with its [finally], on any reader. *)
Lemma drain_any (P : jsstring -> Prop) :
  (forall buf segments rest,
      segmentation buf segments rest -> Forall P segments) ->
  (forall rest, rest <> [] -> find_break rest = None -> P rest) ->
  forall reader done,
  exists c sent,
    drain taken reader done = (c, map Push sent ++ [ReleaseLock]) /\
    Forall P sent /\
    c <> Diverge /\
    (forall e, c = Throw e ->
               e = RepeaterOverflowError \/ In (ReadError e) reader).
Proof.
  intros HP Hrest reader done. unfold drain, Run.try_finally.
  destruct (read_all_any P HP Hrest reader done)
    as (c & sent & -> & Hsent & Hc & Hthrow).
  exists c, sent. destruct c; [| |congruence]; repeat split; auto.
Qed.

Lemma drain_room fragments segments rest :
  fed [] fragments segments rest ->
  forall done,
    room_for taken (count is_push done + List.length segments
                    + List.length rest) ->
    drain taken (map Chunk fragments) done
    = (Normal tt,
       map Push (segments ++ match rest with [] => [] | _ => [rest] end)
         ++ [ReleaseLock]).
Proof.
  intros Hfed done Hroom. unfold drain, Run.try_finally.
  now rewrite (read_all_room _ _ _ Hfed done Hroom).
Qed.

End Queue.

(** The two branches of the choice, by what the buffer holds. *)
Lemma break_at_cjk_mark (buf : jsstring) (cjk : result) :
  String_match buf cjk_re = Some cjk ->
  find_break buf = Some (index cjk, 1%nat) /\
  exists pre c tl,
    buf = pre ++ c :: tl /\ List.length pre = index cjk /\
    no_cjk_mark pre /\ is_cjk_mark c = true.
Proof.
  intros Ecjk.
  assert (Hb : find_break buf = Some (index cjk, 1%nat))
    by (unfold find_break; now rewrite Ecjk).
  split; [exact Hb|].
  pose proof (find_break_cut _ _ _ Hb) as Hcut.
  inversion Hcut as [pre c tl Hpre Hc Hbuf Hpos | ]; subst.
  now exists pre, c, tl.
Qed.

Lemma break_at_latin_mark (buf : jsstring) (en : result) :
  String_match buf cjk_re = None ->
  String_match buf en_re = Some en ->
  find_break buf = Some (index en, 2%nat) /\
  exists c d,
    matched en = [c; d] /\ is_latin_mark c = true /\ is_space d = true /\
    d <> newline.
Proof.
  intros Ecjk Hen.
  assert (Hb : find_break buf = Some (index en, List.length (matched en)))
    by (unfold find_break; now rewrite Ecjk, Hen).
  pose proof (cjk_absent _ Ecjk) as Hno.
  destruct (String_match_leftmost _ _ _ Hen)
    as (pre & suf & n & -> & _ & Hre & Hm & _).
  apply Forall_app in Hno. destruct Hno as [_ Hno].
  apply en_re_inv in Hre.
  destruct Hre as [(-> & c & d & tl & -> & Hc & Hd) | (-> & tl & ->)].
  - simpl in Hm. rewrite Hm in Hb. split; [exact Hb|].
    exists c, d. repeat split; auto. intros ->.
    inversion Hno as [|? ? _ Hno']. inversion Hno' as [|? ? Hnl _].
    discriminate Hnl.
  - exfalso. inversion Hno as [|? ? Hnl _]. discriminate Hnl.
Qed.

(** A buffer with a newline in it is cut by the first rule. *)
Lemma newline_has_cjk_match (buf : jsstring) :
  In newline buf -> exists cjk, String_match buf cjk_re = Some cjk.
Proof.
  intros Hin. destruct (String_match buf cjk_re) as [cjk|] eqn:E; [eauto|].
  exfalso. apply cjk_absent in E. unfold no_cjk_mark in E.
  rewrite Forall_forall in E. specialize (E _ Hin). discriminate E.
Qed.

(** ** The paths through the outer [try] *)

Lemma truthy_nonempty (s : jsstring) : s <> [] -> truthy s = true.
Proof. destruct s; [congruence|reflexivity]. Qed.

Lemma trimStart_blank (s : jsstring) :
  Forall (fun c => is_space c = true) s -> trimStart s = [].
Proof. induction 1 as [|c s Hc _ IH]; simpl; [|rewrite Hc]; auto. Qed.

Lemma trim_blank (s : jsstring) :
  Forall (fun c => is_space c = true) s -> trim s = [].
Proof. intros H. unfold trim. now rewrite (trimStart_blank _ H). Qed.

(** Reading the error payload throws on [null], and on a truthy
    message that cannot be made a string. *)
Lemma error_detail_null (response : Response) :
  json response = Some Json.Null ->
  error_detail response = (Throw (Error.TypeError_of_null "error"), []).
Proof. intros H. unfold error_detail. rewrite H. reflexivity. Qed.

Lemma get_not_null (v : Json.value) (key : string) :
  v <> Json.Null -> exists found, get v key = (Normal found, []).
Proof. destruct v; try congruence; intros _; unfold get, ret; eauto. Qed.

Lemma get_opt_total (v : option Json.value) (key : string) :
  exists found, get_opt v key = (Normal found, []).
Proof.
  destruct v as [[]|]; unfold get_opt, get, ret; eauto.
Qed.

Lemma error_detail_found (response : Response) :
  json response <> Some Json.Null ->
  (exists detail, error_detail response = (Normal detail, []))
  \/ error_detail response = (Throw Error.TypeError_to_primitive, []).
Proof.
  intros H. unfold error_detail.
  set (errorData := match json response with
                    | Some v => v
                    | None => Json.Object []
                    end).
  assert (Hnn : errorData <> Json.Null).
  { subst errorData. destruct (json response) as [v|]; congruence. }
  destruct (get_not_null errorData "error" Hnn) as (error & ->).
  cbn [bind]. destruct (get_opt_total error "message") as (msg & ->).
  cbn [bind app].
  destruct msg as [m|];
    [destruct (Json.truthy m); [destruct (Json.ToString m)|]|];
    unfold ret, throw; eauto.
Qed.

Lemma error_detail_quiet (response : Response) :
  (exists detail, error_detail response = (Normal detail, []))
  \/ error_detail response = (Throw (Error.TypeError_of_null "error"), [])
  \/ error_detail response = (Throw Error.TypeError_to_primitive, []).
Proof.
  destruct (json response) as [[]|] eqn:Hj;
    try (right; left; now apply error_detail_null);
    (destruct (error_detail_found response ltac:(rewrite Hj; congruence));
     [now left|right; now right]).
Qed.

(** A message that is a string is its own rendering. *)
Lemma error_detail_string (response : Response)
      (fields error : list (jsstring * Json.value)) (text : jsstring) :
  json response = Some (Json.Object fields) ->
  Json.lookup fields (js "error") = Some (Json.Object error) ->
  Json.lookup error (js "message") = Some (Json.String text) ->
  text <> [] ->
  error_detail response = (Normal text, []).
Proof.
  intros Hj Herror Hmessage Htext.
  unfold error_detail. rewrite Hj. unfold get. rewrite Herror.
  cbn [bind ret get_opt get]. rewrite Hmessage. cbn [bind ret app].
  destruct text; [congruence|reflexivity].
Qed.

Lemma error_detail_absent (response : Response) :
  (json response = None \/
   exists fields, json response = Some (Json.Object fields) /\
                  Json.lookup fields (js "error") = None) ->
  error_detail response = (Normal (statusText response), []).
Proof.
  intros Hj. unfold error_detail.
  destruct Hj as [-> | (fields & -> & Herror)]; [reflexivity|].
  unfold get. now rewrite Herror.
Qed.

Lemma lift_done {A} (m : M A) (r : M A) (done : list event) :
  m = r -> Run.lift m done = r.
Proof. now intros ->. Qed.

Lemma fetch_resolved (content : jsstring) (response : Response)
      (done : list event) :
  Run.lift (fetch content (Resolved response)) done
  = (Normal response, [Fetch content]).
Proof. reflexivity. Qed.

Section Paths.

Variable taken : list event -> nat.

Lemma attempt_blank (input : ChatInput) (upstream : fetch_result) :
  trim (message input) = [] ->
  attempt taken input upstream []
  = (Normal tt, [Push (js "错误：消息内容不能为空"); Stop]).
Proof.
  intros H. unfold attempt. rewrite H.
  change (negb (truthy [])) with true. cbv iota.
  now rewrite (bind_Normal _ _ _ _ _ (push_first taken _ [] eq_refl)).
Qed.

Lemma attempt_fetch_rejected (input : ChatInput) (e : Error.t) :
  trim (message input) <> [] ->
  attempt taken input (Rejected e) [] = (Throw e, [Fetch (message input)]).
Proof.
  intros H. unfold attempt. rewrite (truthy_nonempty _ H). reflexivity.
Qed.

Lemma attempt_streaming (input : ChatInput) (response : Response)
      (reader : list read_result) :
  trim (message input) <> [] ->
  ok response = true ->
  body response = Some reader ->
  let done := [Fetch (message input); GetReader] in
  attempt taken input (Resolved response) []
  = (outcome (drain taken reader done),
     done ++ trace (drain taken reader done)).
Proof.
  intros H Hok Hbody done. unfold attempt.
  rewrite (truthy_nonempty _ H). cbn [negb].
  rewrite (bind_Normal _ _ _ _ _ (fetch_resolved _ response [])).
  rewrite Hok. cbn [negb app].
  assert (Hr : getReader response = (Normal reader, [GetReader]))
    by (unfold getReader; now rewrite Hbody).
  rewrite (bind_Normal _ _ _ _ _ (lift_done _ _ _ Hr)).
  reflexivity.
Qed.

Lemma attempt_refused (input : ChatInput) (response : Response)
      (detail : jsstring) :
  trim (message input) <> [] ->
  ok response = false ->
  error_detail response = (Normal detail, []) ->
  attempt taken input (Resolved response) []
  = (Normal tt,
     [Fetch (message input);
      Push (js "API错误: " ++ JsString.of_N (status response)
              ++ js " - " ++ detail);
      Stop]).
Proof.
  intros H Hok Hd. unfold attempt.
  rewrite (truthy_nonempty _ H). cbn [negb].
  rewrite (bind_Normal _ _ _ _ _ (fetch_resolved _ response [])).
  rewrite Hok. cbn [negb app].
  rewrite (bind_Normal _ _ _ _ _ (lift_done _ _ _ Hd)).
  erewrite bind_Normal by (apply push_first; reflexivity).
  reflexivity.
Qed.

Lemma attempt_refused_throws (input : ChatInput) (response : Response)
      (e : Error.t) :
  trim (message input) <> [] ->
  ok response = false ->
  error_detail response = (Throw e, []) ->
  attempt taken input (Resolved response) []
  = (Throw e, [Fetch (message input)]).
Proof.
  intros H Hok Hd. unfold attempt.
  rewrite (truthy_nonempty _ H). cbn [negb].
  rewrite (bind_Normal _ _ _ _ _ (fetch_resolved _ response [])).
  rewrite Hok. cbn [negb app].
  now rewrite (bind_Throw _ _ _ _ _ (lift_done _ _ _ Hd)).
Qed.

Lemma attempt_no_body (input : ChatInput) (response : Response) :
  trim (message input) <> [] ->
  ok response = true ->
  body response = None ->
  attempt taken input (Resolved response) []
  = (Throw (Error.TypeError_of_null "getReader"), [Fetch (message input)]).
Proof.
  intros H Hok Hbody. unfold attempt.
  rewrite (truthy_nonempty _ H). cbn [negb].
  rewrite (bind_Normal _ _ _ _ _ (fetch_resolved _ response [])).
  rewrite Hok. cbn [negb app].
  assert (Hr : getReader response
               = (Throw (Error.TypeError_of_null "getReader"), []))
    by (unfold getReader; now rewrite Hbody).
  now rewrite (bind_Throw _ _ _ _ _ (lift_done _ _ _ Hr)).
Qed.

(** What the [catch] block does after the calls made before the
    throw: on the abort it stops; on anything else it pushes the
    diagnostic and stops, unless the queue is full, for then the push
    throws in its turn and the block is left before its [stop]. *)
Lemma recover_abort (e : Error.t) (done : list event) :
  JsString.eqb (Error.name e) (js "AbortError") = true ->
  recover taken e done = (Normal tt, [Stop]).
Proof. intros H. unfold recover. rewrite H. reflexivity. Qed.

Lemma recover_room (e : Error.t) (done : list event) :
  JsString.eqb (Error.name e) (js "AbortError") = false ->
  (count is_push done < MAX_QUEUE_LENGTH + taken done)%nat ->
  recover taken e done
  = (Normal tt,
     [Push (js "服务错误: " ++ or_else (Error.message e) (js "未知错误"));
      Stop]).
Proof.
  intros H Hroom. unfold recover. rewrite H. cbn [negb].
  now rewrite (bind_Normal _ _ _ _ _ (push_room taken _ done Hroom)).
Qed.

Lemma recover_full (e : Error.t) (done : list event) :
  JsString.eqb (Error.name e) (js "AbortError") = false ->
  (MAX_QUEUE_LENGTH + taken done <= count is_push done)%nat ->
  recover taken e done = (Throw RepeaterOverflowError, []).
Proof.
  intros H Hfull. unfold recover. rewrite H. cbn [negb].
  now rewrite (bind_Throw _ _ _ _ _ (push_full taken _ done Hfull)).
Qed.

Lemma recover_any (e : Error.t) (done : list event) :
  (outcome (recover taken e done) = Normal tt /\
   ended (trace (recover taken e done)))
  \/ recover taken e done = (Throw RepeaterOverflowError, []).
Proof.
  destruct (JsString.eqb (Error.name e) (js "AbortError")) eqn:He.
  - left. rewrite (recover_abort _ _ He). split; [reflexivity|now left].
  - destruct (Nat.leb_spec (MAX_QUEUE_LENGTH + taken done)
                           (count is_push done)) as [Hfull | Hroom].
    + right. now apply recover_full.
    + left. rewrite (recover_room _ _ He Hroom).
      split; [reflexivity|]. right. eexists. reflexivity.
Qed.

(** Before anything has been pushed the diagnostic always finds room. *)
Lemma recover_first (e : Error.t) (done : list event) :
  count is_push done = 0%nat ->
  recover taken e done
  = (Normal tt,
     if JsString.eqb (Error.name e) (js "AbortError") then [Stop]
     else [Push (js "服务错误: " ++ or_else (Error.message e) (js "未知错误"));
           Stop]).
Proof.
  intros H. destruct (JsString.eqb (Error.name e) (js "AbortError")) eqn:He.
  - now apply recover_abort.
  - apply recover_room; [exact He|]. rewrite H. unfold MAX_QUEUE_LENGTH. lia.
Qed.

Lemma subscribe_returns (input : ChatInput) (upstream : fetch_result)
      (t : list event) :
  attempt taken input upstream [] = (Normal tt, t) ->
  subscribe taken input upstream [] = (Normal tt, t).
Proof. intros H. unfold subscribe, Run.try_catch. now rewrite H. Qed.

Lemma subscribe_recovers (input : ChatInput) (upstream : fetch_result)
      (e : Error.t) (t : list event) :
  attempt taken input upstream [] = (Throw e, t) ->
  subscribe taken input upstream []
  = (outcome (recover taken e t), t ++ trace (recover taken e t)).
Proof.
  intros H. unfold subscribe, Run.try_catch. rewrite H. cbn [app].
  now destruct (recover taken e t).
Qed.

Lemma subscribe_recovered (input : ChatInput) (upstream : fetch_result)
      (e : Error.t) (t : list event) (c : completion unit)
      (calls : list event) :
  attempt taken input upstream [] = (Throw e, t) ->
  recover taken e t = (c, calls) ->
  subscribe taken input upstream [] = (c, t ++ calls).
Proof.
  intros H Hr. unfold subscribe, Run.try_catch. rewrite H. cbn [app].
  now rewrite Hr.
Qed.

Lemma drain_ends (reader : list read_result) (done : list event)
      (c : completion unit) (calls : list event) :
  read_all taken reader done = (c, calls) ->
  c <> Diverge ->
  drain taken reader done = (c, calls ++ [ReleaseLock]).
Proof.
  intros H Hc. unfold drain, Run.try_finally. rewrite H.
  destruct c; [reflexivity|reflexivity|congruence].
Qed.

Lemma attempt_streams (input : ChatInput) (response : Response)
      (reader : list read_result) (c : completion unit)
      (calls : list event) :
  trim (message input) <> [] ->
  ok response = true ->
  body response = Some reader ->
  drain taken reader [Fetch (message input); GetReader] = (c, calls) ->
  attempt taken input (Resolved response) []
  = (c, [Fetch (message input); GetReader] ++ calls).
Proof.
  intros H Hok Hbody Hd.
  rewrite (attempt_streaming _ _ _ H Hok Hbody). cbv zeta. now rewrite Hd.
Qed.

(** A throw before the reader is taken: nothing has been pushed, so the
    [catch] block does all it is written to do. *)
Lemma subscribe_fails_early (input : ChatInput) (upstream : fetch_result)
      (e : Error.t) :
  attempt taken input upstream [] = (Throw e, [Fetch (message input)]) ->
  subscribe taken input upstream []
  = (Normal tt,
     Fetch (message input)
       :: if JsString.eqb (Error.name e) (js "AbortError") then [Stop]
          else [Push (js "服务错误: "
                        ++ or_else (Error.message e) (js "未知错误"));
                Stop]).
Proof.
  intros H. rewrite (subscribe_recovers _ _ _ _ H).
  now rewrite (recover_first e [Fetch (message input)] eq_refl).
Qed.

Lemma subscribe_refused (input : ChatInput) (response : Response)
      (detail : jsstring) :
  trim (message input) <> [] ->
  ok response = false ->
  error_detail response = (Normal detail, []) ->
  subscribe taken input (Resolved response) []
  = (Normal tt,
     [Fetch (message input);
      Push (js "API错误: " ++ JsString.of_N (status response)
              ++ js " - " ++ detail);
      Stop]).
Proof.
  intros H Hok Hd. apply subscribe_returns. now apply attempt_refused.
Qed.

(** A run that reaches the read loop: the calls it makes, in order. *)
Lemma subscribe_streaming (P : jsstring -> Prop) :
  (forall buf segments rest,
      segmentation buf segments rest -> Forall P segments) ->
  (forall rest, rest <> [] -> find_break rest = None -> P rest) ->
  forall (input : ChatInput) (response : Response)
         (reader : list read_result),
  trim (message input) <> [] ->
  ok response = true ->
  body response = Some reader ->
  exists c sent after,
    subscribe taken input (Resolved response) []
    = (c, [Fetch (message input); GetReader] ++ map Push sent
            ++ [ReleaseLock] ++ after) /\
    Forall P sent /\
    (after = [] \/ ended after) /\
    c <> Diverge.
Proof.
  intros HP Hrest input response reader H Hok Hbody.
  pose proof (attempt_streaming _ _ _ H Hok Hbody) as Ha. cbv zeta in Ha.
  destruct (drain_any taken P HP Hrest reader
              [Fetch (message input); GetReader])
    as (c & sent & Hd & Hsent & Hc & _).
  rewrite Hd in Ha. cbn [outcome trace fst snd] in Ha.
  destruct c as [[]|e|]; [| |congruence].
  - exists (Normal tt), sent, [].
    rewrite (subscribe_returns _ _ _ Ha).
    repeat split; auto; discriminate.
  - rewrite (subscribe_recovers _ _ _ _ Ha).
    set (done := [Fetch (message input); GetReader]
                   ++ map Push sent ++ [ReleaseLock]).
    destruct (recover_any e done) as [[Hn Hended] | Hfull].
    + exists (Normal tt), sent, (trace (recover taken e done)).
      rewrite Hn. subst done. rewrite <- !app_assoc.
      repeat split; auto; discriminate.
    + exists (Throw RepeaterOverflowError), sent, [].
      rewrite Hfull. subst done. cbn [outcome trace fst snd].
      rewrite <- !app_assoc.
      repeat split; auto; discriminate.
Qed.

End Paths.

(** ** A full queue *)

Lemma newlines_segmentation (n : nat) :
  segmentation (repeat newline n) (repeat [newline] n) [].
Proof.
  induction n as [|n IH]; simpl.
  - now constructor.
  - apply (seg_cut (newline :: repeat newline n) 0 1); [reflexivity|exact IH].
Qed.

Lemma feed_newlines (n : nat) :
  feed [] (repeat newline n) = Some (repeat [newline] n, []).
Proof.
  destruct (feed_segmentation [] (repeat newline n)) as (segs & rest & E & H).
  destruct (segmentation_functional _ _ _ H _ _ (newlines_segmentation n))
    as [-> ->].
  exact E.
Qed.


(** One chunk that completes two segments more than the queue holds,
    read when nothing has been pushed yet by a subscriber that has
    asked once: the first push is taken, the queue takes the next
    [MAX_QUEUE_LENGTH], and the push after those throws. *)
Lemma read_all_overflows (later : list read_result) (done : list event) :
  count is_push done = 0%nat ->
  read_all asked_once
    (Chunk (repeat newline (MAX_QUEUE_LENGTH + 2)) :: later) done
  = (Throw RepeaterOverflowError,
     map Push (repeat [newline] (MAX_QUEUE_LENGTH + 1))).
Proof.
  intros Hdone. unfold read_all. apply bind_Throw.
  cbn [read_loop]. rewrite feed_newlines. apply bind_Throw.
  replace (MAX_QUEUE_LENGTH + 2)%nat with (S (MAX_QUEUE_LENGTH + 1)) by lia.
  cbn [repeat]. rewrite repeat_cons.
  apply forEach_push_overflow; rewrite Hdone, repeat_length.
  - exact asked_once_room.
  - unfold asked_once. lia.
Qed.

(** The run on that chunk.  The push that throws takes the run out of
    the read loop past the flush; the reader is released; and in the
    [catch] block the diagnostic finds the same full queue, so that its
    push throws too and [stop] is not reached. *)
Lemma full_queue_run (input : ChatInput) (response : Response)
      (later : list read_result) :
  trim (message input) <> [] ->
  ok response = true ->
  body response
  = Some (Chunk (repeat newline (MAX_QUEUE_LENGTH + 2)) :: later) ->
  subscribe asked_once input (Resolved response) []
  = (Throw RepeaterOverflowError,
     [Fetch (message input); GetReader]
       ++ map Push (repeat [newline] (MAX_QUEUE_LENGTH + 1))
       ++ [ReleaseLock]).
Proof.
  intros H Hok Hbody.
  pose proof (read_all_overflows later [Fetch (message input); GetReader]
                eq_refl) as Hread.
  pose proof (drain_ends asked_once _ _ _ _ Hread ltac:(discriminate))
    as Hdrain.
  pose proof (attempt_streams asked_once _ _ _ _ _ H Hok Hbody Hdrain) as Ha.
  rewrite (subscribe_recovered asked_once _ _ _ _
             (Throw RepeaterOverflowError) [] Ha).
  - now rewrite app_nil_r.
  - apply recover_full; [vm_compute; reflexivity|].
    rewrite !count_app, count_is_push, repeat_length.
    change (count is_push [Fetch (message input); GetReader]) with 0%nat.
    change (count is_push [ReleaseLock]) with 0%nat.
    unfold asked_once. lia.
Qed.

Lemma sample_input_not_blank : trim (message sample_input) <> [].
Proof. vm_compute. discriminate. Qed.

(** * The segmenter's claims *)

(** C1, as stated, fails.  In the buffer "Hi. 你好。" the leftmost match
    of the Latin pattern is at index 2 and the leftmost match of the CJK
    pattern is at index 6, yet the cut is made at the CJK mark: the
    loop emits the whole buffer as one segment, not "Hi. ". *)
Lemma earlier_latin_boundary_not_chosen :
  let buf := js "Hi. 你好。" in
  String_match buf en_re = Some {| index := 2; matched := js ". " |} /\
  String_match buf cjk_re = Some {| index := 6; matched := js "。" |} /\
  find_break buf = Some (6, 1)%nat /\
  find_break buf <> Some (2, 2)%nat /\
  feed [] buf = Some ([js "Hi. 你好。"], []).
Proof. vm_compute. repeat split; auto. discriminate. Qed.

(** C1, amended: when the Latin pattern matches somewhere in the
    buffer, the cut is still made at the leftmost mark of the CJK class
    (break size 1) if the buffer holds one, wherever the Latin match
    lies; the leftmost Latin boundary, a mark with the white space after
    it, is chosen only when the CJK pattern matches nowhere. *)
Theorem cjk_boundary_has_precedence (buf : jsstring) (en : result) :
  String_match buf en_re = Some en ->
  match String_match buf cjk_re with
  | Some cjk =>
      find_break buf = Some (index cjk, 1%nat) /\
      exists pre c tl,
        buf = pre ++ c :: tl /\ List.length pre = index cjk /\
        no_cjk_mark pre /\ is_cjk_mark c = true
  | None =>
      find_break buf = Some (index en, 2%nat) /\
      exists c d,
        matched en = [c; d] /\ is_latin_mark c = true /\ is_space d = true
  end.
Proof.
  intros Hen.
  destruct (String_match buf cjk_re) as [cjk|] eqn:Ecjk.
  - now apply break_at_cjk_mark.
  - destruct (break_at_latin_mark _ _ Ecjk Hen) as (Hb & c & d & ? & ? & ? & _).
    split; [exact Hb|]. now exists c, d.
Qed.

Lemma cjk_boundary_has_precedence_witness :
  find_break (js "Hi. 你好。") = Some (6, 1)%nat /\
  exists pre c tl,
    js "Hi. 你好。" = pre ++ c :: tl /\ List.length pre = 6%nat /\
    no_cjk_mark pre /\ is_cjk_mark c = true.
Proof.
  exact (cjk_boundary_has_precedence (js "Hi. 你好。")
           {| index := 2; matched := js ". " |} eq_refl).
Defined.

(** With room in the queue for what the text completes, none of it is
    lost: however the text is split into fragments, the segments the
    read loop pushes, followed by the text it still holds when the data
    ends, spell the text; and so do the messages pushed once that rest
    has been flushed. *)
Lemma text_conserved_with_room (taken : list event -> nat)
      (fragments : list jsstring) (done : list event) :
  room_for taken (count is_push done + List.length (List.concat fragments)) ->
  exists segments rest,
    fed [] fragments segments rest /\
    read_loop taken (map Chunk fragments) [] done
    = (Normal rest, map Push segments) /\
    List.concat segments ++ rest = List.concat fragments /\
    outcome (read_all taken (map Chunk fragments) done) = Normal tt /\
    List.concat (pushed (trace (read_all taken (map Chunk fragments) done)))
    = List.concat fragments.
Proof.
  intros Hroom.
  destruct (fed_exists fragments []) as (segs & rest & Hfed).
  pose proof (fed_steps _ _ _ _ Hfed) as Hsteps. simpl in Hsteps.
  pose proof (fed_concat _ _ _ _ Hfed) as Hcat. simpl in Hcat.
  assert (Hr : room_for taken (count is_push done + List.length segs
                               + List.length rest))
    by (eapply room_for_less; [exact Hroom|lia]).
  exists segs, rest. split; [exact Hfed|]. split; [|split; [exact Hcat|]].
  - apply (read_loop_room taken _ _ _ _ Hfed).
    eapply room_for_less; [exact Hroom|lia].
  - rewrite (read_all_room taken _ _ _ Hfed done Hr).
    split; [reflexivity|]. cbn [trace snd].
    rewrite pushed_map_Push, concat_app, <- Hcat.
    destruct rest; simpl; now rewrite ?app_nil_r.
Qed.

Example three_fragments_spell_the_text :
  read_all asked_once (map Chunk [js "Hel"; js "lo. Wor"; js "ld"]) []
  = (Normal tt, [Push (js "Hello. "); Push (js "World")]).
Proof. reflexivity. Qed.


(** C6: the one fragment "Hello. World", fed with nothing held before,
    completes the single segment "Hello. " and leaves "World" in the
    buffer. *)
Theorem hello_world_fragment (taken : list event -> nat) :
  feed [] (js "Hello. World") = Some ([js "Hello. "], js "World") /\
  read_loop taken [Chunk (js "Hello. World")] [] []
  = (Normal (js "World"), [Push (js "Hello. ")]).
Proof.
  split; [reflexivity|].
  apply (read_loop_room taken [] [js "Hello. World"]
           ([js "Hello. "] ++ []) (js "World")).
  - apply (fed_chunk [] (js "Hello. World") [] [js "Hello. "] (js "World"));
      [reflexivity|constructor].
  - apply room_for_few. reflexivity.
Qed.

(** C8: no pushed segment is empty.  Every segment the inner loop
    completes has at least one code unit; the flush at the end of the
    data pushes the held text only when it is not empty; so no message
    pushed from the inner [try] block is empty, whatever the reads
    give, whatever has been pushed before and whatever room the queue
    has. *)
Theorem no_empty_segment (taken : list event -> nat)
        (messageBuffer chunk : jsstring)
        (reader : list read_result) (done : list event) :
  (exists segments rest,
      feed messageBuffer chunk = Some (segments, rest) /\
      Forall (fun segment => (1 <= List.length segment)%nat) segments) /\
  Forall (fun segment => (1 <= List.length segment)%nat)
         (pushed (trace (flush taken messageBuffer done))) /\
  Forall (fun segment => (1 <= List.length segment)%nat)
         (pushed (trace (read_all taken reader done))).
Proof.
  assert (Hne : forall rest : jsstring,
             rest <> [] -> (1 <= List.length rest)%nat).
  { intros [|x rest] H; [congruence|simpl; lia]. }
  split; [|split].
  - destruct (feed_segmentation messageBuffer chunk) as (segs & rest & E & H).
    exists segs, rest. split; [exact E|].
    eapply segmentation_nonempty; eauto.
  - destruct (flush_any taken messageBuffer done)
      as (c & sent & -> & [-> | (-> & H)] & _); cbn [trace snd];
      rewrite pushed_map_Push; repeat constructor. now apply Hne.
  - destruct (read_all_any taken _ segmentation_nonempty
                (fun rest H _ => Hne rest H) reader done)
      as (c & sent & -> & Hsent & _).
    cbn [trace snd]. now rewrite pushed_map_Push.
Qed.

(** C9: the inner loop ends on every buffer.  A break that is found
    cuts off a prefix of [breakPos + breakSize >= 1] code units, so the
    buffer kept is strictly shorter; the loop leaves through its [break]
    after at most as many cuts as the buffer has code units, with a rest
    in which no boundary is left, and any fuel beyond the length of the
    buffer gives that same result. *)
Theorem inner_loop_terminates (buf : jsstring) :
  (forall breakPos breakSize,
      find_break buf = Some (breakPos, breakSize) ->
      (1 <= breakPos + breakSize)%nat /\
      List.length (JsString.substring_to (breakPos + breakSize) buf)
      = (breakPos + breakSize)%nat /\
      (List.length (JsString.substring_from (breakPos + breakSize) buf)
       < List.length buf)%nat) /\
  exists segments rest,
    segmentation buf segments rest /\
    (List.length segments <= List.length buf)%nat /\
    find_break rest = None /\
    forall fuel, (List.length buf < fuel)%nat ->
                 scan fuel [] buf = Some (segments, rest).
Proof.
  split.
  - intros pos size E. apply find_break_cut, cut_bounds in E. lia.
  - destruct (segmentation_exists buf) as (segs & rest & H).
    exists segs, rest. split; [exact H|]. split; [|split].
    + apply segmentation_steps in H. lia.
    + eapply segmentation_rest; eauto.
    + intros fuel Hfuel. now rewrite (scan_enough _ _ _ H).
Qed.

Lemma inner_loop_terminates_witness :
  (1 <= 5 + 2)%nat /\
  List.length (JsString.substring_to (5 + 2) (js "Hello. World")) = (5 + 2)%nat /\
  (List.length (JsString.substring_from (5 + 2) (js "Hello. World"))
   < List.length (js "Hello. World"))%nat.
Proof.
  exact (proj1 (inner_loop_terminates (js "Hello. World")) 5%nat 2%nat eq_refl).
Defined.

(** C10: every segment the inner loop completes ends at a boundary it
    detected: with one of 。？！ or a newline, or with one of . ? !
    followed by one white-space code unit.  The bare newline of the
    Latin pattern never decides a cut.  When the CJK pattern has no
    match, the cut is made at the match of the Latin pattern, which is
    then a mark and a white-space code unit that is not a newline.  And
    a buffer with a newline in it is cut by the CJK pattern, at the
    first mark of its class and after that one code unit, wherever the
    Latin pattern matches. *)
Theorem segments_end_at_boundaries (messageBuffer chunk : jsstring) :
  (exists segments rest,
      feed messageBuffer chunk = Some (segments, rest) /\
      Forall ends_at_boundary segments) /\
  (forall en,
      String_match (messageBuffer ++ chunk) cjk_re = None ->
      String_match (messageBuffer ++ chunk) en_re = Some en ->
      find_break (messageBuffer ++ chunk) = Some (index en, 2%nat) /\
      exists c d,
        matched en = [c; d] /\ is_latin_mark c = true /\ is_space d = true /\
        d <> newline) /\
  (In newline (messageBuffer ++ chunk) ->
   exists cjk pre c tl,
     String_match (messageBuffer ++ chunk) cjk_re = Some cjk /\
     find_break (messageBuffer ++ chunk) = Some (index cjk, 1%nat) /\
     messageBuffer ++ chunk = pre ++ c :: tl /\
     List.length pre = index cjk /\
     no_cjk_mark pre /\ is_cjk_mark c = true).
Proof.
  split; [|split].
  - destruct (feed_segmentation messageBuffer chunk) as (segs & rest & E & H).
    exists segs, rest. split; [exact E|].
    eapply segmentation_boundary; eauto.
  - intros en Ecjk Een.
    exact (break_at_latin_mark _ _ Ecjk Een).
  - intros Hin. destruct (newline_has_cjk_match _ Hin) as (cjk & Ecjk).
    destruct (break_at_cjk_mark _ _ Ecjk) as (Hb & pre & c & tl & H).
    exists cjk, pre, c, tl. tauto.
Qed.

Lemma segments_end_at_boundaries_witness :
  (find_break ([] ++ js "Hello. World") = Some (5, 2)%nat /\
   exists c d,
     js ". " = [c; d] /\ is_latin_mark c = true /\ is_space d = true /\
     d <> newline) /\
  (exists cjk pre c tl,
      String_match ([] ++ js "a. b" ++ [newline]) cjk_re = Some cjk /\
      find_break ([] ++ js "a. b" ++ [newline]) = Some (index cjk, 1%nat) /\
      [] ++ js "a. b" ++ [newline] = pre ++ c :: tl /\
      List.length pre = index cjk /\
      no_cjk_mark pre /\ is_cjk_mark c = true).
Proof.
  split.
  - exact (proj1 (proj2 (segments_end_at_boundaries [] (js "Hello. World")))
             {| index := 5; matched := js ". " |} eq_refl eq_refl).
  - apply (proj2 (proj2 (segments_end_at_boundaries
                           [] (js "a. b" ++ [newline])))).
    apply in_or_app. right. apply in_or_app. right. now left.
Defined.

(** Were the Latin pattern tried first, the second of these buffers
    would be cut after "a. "; it is cut at the newline. *)
Example newline_decides_before_a_latin_boundary :
  String_match (js "a. b" ++ [newline]) en_re
  = Some {| index := 1; matched := js ". " |} /\
  find_break (js "a. b" ++ [newline]) = Some (4, 1)%nat /\
  feed [] (js "a. b" ++ [newline]) = Some ([js "a. b" ++ [newline]], []).
Proof. repeat split. Qed.

(** * The producer's claims *)

(** With room in the queue the [catch] block does what it is written
    to do.  A failure named [AbortError], which is how the abort of the
    request in flight reaches the producer, adds no pushed event: the
    producer stops and that is all.  Any other exception adds exactly
    one event, the diagnostic, before the stop.  This holds when the
    [fetch] itself is rejected and when a read is rejected after any
    number of chunks, whose completed segments have been pushed. *)
Lemma failure_reported_with_room
      (taken : list event -> nat)
      (input : ChatInput) (e : Error.t) (response : Response)
      (fragments : list jsstring) (later : list read_result) :
  trim (message input) <> [] ->
  ok response = true ->
  body response = Some (map Chunk fragments ++ ReadError e :: later) ->
  room_for taken (List.length (List.concat fragments) + 1) ->
  let on_error :=
    if JsString.eqb (Error.name e) (js "AbortError") then [Stop]
    else [Push (js "服务错误: " ++ or_else (Error.message e) (js "未知错误"));
          Stop] in
  subscribe taken input (Rejected e) []
  = (Normal tt, [Fetch (message input)] ++ on_error) /\
  exists segments rest,
    fed [] fragments segments rest /\
    subscribe taken input (Resolved response) []
    = (Normal tt,
       [Fetch (message input); GetReader] ++ map Push segments
         ++ [ReleaseLock] ++ on_error).
Proof.
  intros H Hok Hbody Hroom on_error. split.
  - exact (subscribe_fails_early taken _ _ _
             (attempt_fetch_rejected taken _ _ H)).
  - destruct (fed_exists fragments []) as (segs & rest & Hfed).
    pose proof (fed_steps _ _ _ _ Hfed) as Hsteps. simpl in Hsteps.
    exists segs, rest. split; [exact Hfed|].
    pose proof (attempt_streaming taken _ _ _ H Hok Hbody) as Ha.
    cbv zeta in Ha. unfold drain, Run.try_finally, read_all in Ha.
    assert (Hsegs : room_for taken
                      (count is_push [Fetch (message input); GetReader]
                       + List.length segs)).
    { eapply room_for_less; [exact Hroom|].
      change (count is_push [Fetch (message input); GetReader]) with 0%nat.
      lia. }
    rewrite (bind_Throw _ _ _ _ _
               (read_loop_rejected taken _ _ _ _ e later Hfed _ Hsegs))
      in Ha.
    cbn [Run.lift releaseLock emit outcome trace fst snd] in Ha.
    rewrite (subscribe_recovers taken _ _ _ _ Ha).
    set (done := [Fetch (message input); GetReader]
                   ++ map Push segs ++ [ReleaseLock]).
    assert (Hdone : (count is_push done
                     < MAX_QUEUE_LENGTH + taken done)%nat).
    { apply Hroom. subst done. rewrite !count_app, count_is_push.
      change (count is_push [Fetch (message input); GetReader]) with 0%nat.
      change (count is_push [ReleaseLock]) with 0%nat. lia. }
    subst on_error.
    destruct (JsString.eqb (Error.name e) (js "AbortError")) eqn:He.
    + rewrite (recover_abort taken _ _ He). subst done.
      cbn [outcome trace fst snd]. now rewrite <- !app_assoc.
    + rewrite (recover_room taken _ _ He Hdone). subst done.
      cbn [outcome trace fst snd]. now rewrite <- !app_assoc.
Qed.

Example abort_while_reading_is_silent :
  subscribe asked_once sample_input
    (Resolved (sample_stream [Chunk (js "Hello. Wor");
                              ReadError Error.AbortError])) []
  = (Normal tt,
     [Fetch (js "hi"); GetReader; Push (js "Hello. "); ReleaseLock; Stop]).
Proof. reflexivity. Qed.

Example read_failure_is_reported :
  subscribe asked_once sample_input
    (Resolved (sample_stream [Chunk (js "Hello. Wor");
                              ReadError sample_failure])) []
  = (Normal tt,
     [Fetch (js "hi"); GetReader; Push (js "Hello. "); ReleaseLock;
      Push (js "服务错误: network error"); Stop]).
Proof. reflexivity. Qed.

Example nameless_failure_is_reported :
  subscribe asked_once sample_input
    (Rejected {| Error.name := js "Error"; Error.message := [] |}) []
  = (Normal tt, [Fetch (js "hi"); Push (js "服务错误: 未知错误"); Stop]).
Proof. reflexivity. Qed.

(** C3 fails when the queue of the subscriber is full.  On one chunk
    of [MAX_QUEUE_LENGTH + 2] newlines the push of the last segment
    throws.  That exception is not the abort, so the [catch] block
    goes on to push its diagnostic; the queue is as full as it was, the
    push throws again, and the block is left before [stop].  The run
    ends with the exception: no diagnostic has been pushed, every
    message pushed being a newline of the text, and [stop] has not
    been called. *)
Theorem full_queue_failure_not_reported :
  let reader := [Chunk (repeat newline (MAX_QUEUE_LENGTH + 2))] in
  let run :=
    subscribe asked_once sample_input (Resolved (sample_stream reader)) [] in
  outcome run = Throw RepeaterOverflowError /\
  JsString.eqb (Error.name RepeaterOverflowError) (js "AbortError") = false /\
  (forall m, In (Push m) (trace run) -> m = [newline]) /\
  count is_stop (trace run) = 0%nat.
Proof.
  intros reader run. subst reader run.
  rewrite (full_queue_run sample_input (sample_stream _) []
             sample_input_not_blank eq_refl eq_refl).
  cbn [outcome trace fst snd]. split; [reflexivity|].
  split; [vm_compute; reflexivity|]. split.
  - intros m Hin. apply in_app_or in Hin.
    destruct Hin as [[Hin | [Hin | []]] | Hin]; try discriminate.
    apply in_app_or in Hin. destruct Hin as [Hin | [Hin | []]];
      [|discriminate].
    apply in_map_iff in Hin. destruct Hin as (x & [= ->] & Hx).
    now apply repeat_spec in Hx.
  - rewrite !count_app, count_pushes by reflexivity. reflexivity.
Qed.

(** C5: a message that is empty or holds white space only is turned
    down before anything is sent upstream: the producer pushes the one
    diagnostic, stops, and makes no [fetch] call, whatever the upstream
    would have answered. *)
Theorem blank_message_rejected (taken : list event -> nat)
        (input : ChatInput) (upstream : fetch_result) :
  Forall (fun c => is_space c = true) (message input) ->
  subscribe taken input upstream []
  = (Normal tt, [Push (js "错误：消息内容不能为空"); Stop]) /\
  count is_fetch (trace (subscribe taken input upstream [])) = 0%nat.
Proof.
  intros H. apply trim_blank in H.
  assert (E : subscribe taken input upstream []
              = (Normal tt, [Push (js "错误：消息内容不能为空"); Stop])).
  { apply subscribe_returns. now apply attempt_blank. }
  split; [exact E|]. rewrite E. reflexivity.
Qed.

Lemma blank_message_rejected_witness :
  subscribe asked_once {| message := [32; 10; 9; 12288] |}
    (Resolved (sample_stream [Chunk (js "Hello. World")])) []
  = (Normal tt, [Push (js "错误：消息内容不能为空"); Stop]) /\
  count is_fetch
    (trace (subscribe asked_once {| message := [32; 10; 9; 12288] |}
              (Resolved (sample_stream [Chunk (js "Hello. World")])) []))
  = 0%nat.
Proof.
  apply (blank_message_rejected asked_once
           {| message := [32; 10; 9; 12288] |}).
  simpl. repeat constructor.
Defined.

Lemma trimStart_nil_inv (s : jsstring) :
  trimStart s = [] -> Forall (fun c => is_space c = true) s.
Proof.
  induction s as [|c s IH]; simpl; [constructor|].
  destruct (is_space c) eqn:E; [|discriminate].
  intros H. constructor; auto.
Qed.

Lemma trimStart_head (s : jsstring) (c : N) (r : jsstring) :
  trimStart s = c :: r -> is_space c = false.
Proof.
  induction s as [|x s IH]; simpl; [discriminate|].
  destruct (is_space x) eqn:E; [exact IH|]. now intros [= <- _].
Qed.

Lemma trim_nil_inv (s : jsstring) :
  trim s = [] -> Forall (fun c => is_space c = true) s.
Proof.
  unfold trim. intros H.
  assert (H' : trimStart (rev (trimStart s)) = []).
  { rewrite <- (rev_involutive (trimStart (rev (trimStart s)))), H.
    reflexivity. }
  apply trimStart_nil_inv, Forall_rev in H'. rewrite rev_involutive in H'.
  destruct (trimStart s) as [|c r] eqn:E; [now apply trimStart_nil_inv|].
  inversion H' as [|? ? Hc _]. now rewrite (trimStart_head _ _ _ E) in Hc.
Qed.

Lemma blank_dec (s : jsstring) :
  forallb is_space s = true /\ trim s = []
  \/ forallb is_space s = false /\ trim s <> [].
Proof.
  destruct (forallb is_space s) eqn:E.
  - left. split; [reflexivity|]. apply trim_blank, Forall_forall.
    now apply forallb_forall.
  - right. split; [reflexivity|]. intros H. apply trim_nil_inv in H.
    rewrite Forall_forall in H. apply forallb_forall in H. congruence.
Qed.

(** The calls of a run of the producer have one of the three shapes
    of [run], whatever the subscriber takes; and the run ends. *)
Lemma subscribe_run (taken : list event -> nat)
      (input : ChatInput) (upstream : fetch_result) :
  run (message input) (trace (subscribe taken input upstream [])) /\
  outcome (subscribe taken input upstream []) <> Diverge.
Proof.
  destruct (trim (message input)) as [|c0 s0] eqn:Htrim.
  { rewrite (subscribe_returns taken _ _ _ (attempt_blank taken _ _ Htrim)).
    split; [now constructor|discriminate]. }
  assert (H : trim (message input) <> []) by (rewrite Htrim; discriminate).
  clear Htrim.
  assert (Hfail : forall err,
             attempt taken input upstream []
             = (Throw err, [Fetch (message input)]) ->
             run (message input) (trace (subscribe taken input upstream []))
             /\ outcome (subscribe taken input upstream []) <> Diverge).
  { intros err Ha. rewrite (subscribe_fails_early taken _ _ _ Ha).
    split; [|discriminate]. cbn [trace snd].
    constructor; [exact H|].
    destruct (JsString.eqb (Error.name err) (js "AbortError"));
      [now left|right; eexists; reflexivity]. }
  destruct upstream as [response|err].
  - destruct (ok response) eqn:Hok.
    + destruct (body response) as [reader|] eqn:Hbody.
      * destruct (subscribe_streaming taken _ segmentation_nonempty
                    (fun rest (Hne : rest <> []) _ =>
                       match rest return rest <> [] ->
                                         (1 <= List.length rest)%nat with
                       | [] => fun Hn => False_ind _ (Hn eq_refl)
                       | _ :: _ => fun _ => le_n_S _ _ (Nat.le_0_l _)
                       end Hne)
                    _ _ _ H Hok Hbody)
          as (c & sent & after & -> & Hsent & Hafter & Hc).
        split; [|exact Hc]. cbn [trace snd app].
        now apply run_streamed.
      * apply (Hfail _ (attempt_no_body taken _ _ H Hok Hbody)).
    + destruct (error_detail_quiet response) as [(detail & Hd) | [Hd | Hd]].
      * rewrite (subscribe_refused taken _ _ _ H Hok Hd).
        split; [|discriminate]. cbn [trace snd].
        constructor; [exact H|right; eexists; reflexivity].
      * apply (Hfail _ (attempt_refused_throws taken _ _ _ H Hok Hd)).
      * apply (Hfail _ (attempt_refused_throws taken _ _ _ H Hok Hd)).
  - apply (Hfail _ (attempt_fetch_rejected taken _ _ H)).
Qed.

Lemma count_ended (p : event -> bool) (ending : list event) :
  (forall m, p (Push m) = false) -> ended ending ->
  count p ending = if p Stop then 1%nat else 0%nat.
Proof.
  intros Hp [-> | (d & ->)]; unfold count; simpl; rewrite ?Hp;
    destruct (p Stop); reflexivity.
Qed.

(** On every run the reader is released as often as it is taken, and
    that is at most once. *)
Lemma release_matches_get_reader (taken : list event -> nat)
      (input : ChatInput) (upstream : fetch_result) :
  count is_release (trace (subscribe taken input upstream []))
  = count is_get_reader (trace (subscribe taken input upstream [])) /\
  (count is_release (trace (subscribe taken input upstream [])) <= 1)%nat.
Proof.
  destruct (subscribe_run taken input upstream) as [Hrun _].
  set (t := trace (subscribe taken input upstream [])) in *. clearbody t.
  inversion Hrun as [Ht Heq | ending Ht Hend Heq
                     | segs ending Ht Hne Hend Heq ]; subst t.
  - split; [reflexivity|unfold count; simpl; lia].
  - change (Fetch (message input) :: ending)
      with ([Fetch (message input)] ++ ending).
    rewrite !count_app,
      (count_ended is_release _ (fun _ => eq_refl) Hend),
      (count_ended is_get_reader _ (fun _ => eq_refl) Hend).
    split; [reflexivity|unfold count; simpl; lia].
  - change (Fetch (message input) :: GetReader :: map Push segs
              ++ ReleaseLock :: ending)
      with ([Fetch (message input); GetReader] ++ map Push segs
              ++ [ReleaseLock] ++ ending).
    rewrite !count_app, !count_pushes by reflexivity.
    assert (He : count is_release ending = 0%nat
                 /\ count is_get_reader ending = 0%nat).
    { destruct Hend as [-> | Hend]; [now split|].
      now rewrite (count_ended is_release _ (fun _ => eq_refl) Hend),
        (count_ended is_get_reader _ (fun _ => eq_refl) Hend). }
    destruct He as [-> ->]. split; [reflexivity|unfold count; simpl; lia].
Qed.

(** C7: once the reader has been taken, [releaseLock] runs exactly once
    however the read loop ends, be it at the end of the data, on a
    rejected read or on a push that throws: the inner [try] statement
    never hangs, [releaseLock] is its last call and its only one, and
    the whole run of the producer takes the reader once and releases it
    once. *)
Theorem reader_released_exactly_once
        (taken : list event -> nat) (input : ChatInput)
        (response : Response) (reader : list read_result)
        (done : list event) :
  trim (message input) <> [] ->
  ok response = true ->
  body response = Some reader ->
  outcome (drain taken reader done) <> Diverge /\
  (exists t, trace (drain taken reader done) = t ++ [ReleaseLock] /\
             count is_release t = 0%nat) /\
  count is_release (trace (drain taken reader done)) = 1%nat /\
  count is_get_reader
    (trace (subscribe taken input (Resolved response) [])) = 1%nat /\
  count is_release
    (trace (subscribe taken input (Resolved response) [])) = 1%nat.
Proof.
  intros H Hok Hbody.
  destruct (drain_any taken (fun _ => True)
              (fun _ segments _ _ =>
                 proj2 (Forall_forall _ segments) (fun _ _ => I))
              (fun _ _ _ => I) reader done)
    as (c & sent & -> & _ & Hc & _).
  cbn [outcome trace fst snd].
  split; [exact Hc|]. split; [|split].
  - exists (map Push sent). split; [reflexivity|].
    now apply count_pushes.
  - rewrite count_app, count_pushes by reflexivity. reflexivity.
  - destruct (subscribe_streaming taken (fun _ => True)
                (fun _ segments _ _ =>
                   proj2 (Forall_forall _ segments) (fun _ _ => I))
                (fun _ _ _ => I) _ _ _ H Hok Hbody)
      as (c' & sent' & after & -> & _ & Hafter & _).
    assert (Ha : count is_get_reader after = 0%nat
                 /\ count is_release after = 0%nat).
    { destruct Hafter as [-> | Hend]; [now split|].
      now rewrite (count_ended is_release _ (fun _ => eq_refl) Hend),
        (count_ended is_get_reader _ (fun _ => eq_refl) Hend). }
    destruct Ha as [Hg Hr]. cbn [trace snd].
    rewrite !count_app, !count_pushes, Hg, Hr by reflexivity.
    split; reflexivity.
Qed.

Lemma reader_released_exactly_once_witness :
  let reader := [Chunk (js "Hello. Wor"); ReadError Error.AbortError] in
  outcome (drain asked_once reader []) <> Diverge /\
  (exists t, trace (drain asked_once reader []) = t ++ [ReleaseLock] /\
             count is_release t = 0%nat) /\
  count is_release (trace (drain asked_once reader [])) = 1%nat /\
  count is_get_reader
    (trace (subscribe asked_once sample_input
              (Resolved (sample_stream reader)) [])) = 1%nat /\
  count is_release
    (trace (subscribe asked_once sample_input
              (Resolved (sample_stream reader)) [])) = 1%nat.
Proof.
  apply (reader_released_exactly_once asked_once sample_input
           (sample_stream [Chunk (js "Hello. Wor"); ReadError Error.AbortError])).
  - vm_compute. discriminate.
  - reflexivity.
  - reflexivity.
Defined.

(** The reader is released also on the run in which a push throws. *)
Example reader_released_on_a_full_queue :
  count is_release
    (trace (subscribe asked_once sample_input
              (Resolved (sample_stream
                           [Chunk (repeat newline (MAX_QUEUE_LENGTH + 2))]))
              []))
  = 1%nat.
Proof.
  rewrite (full_queue_run sample_input (sample_stream _) []
             sample_input_not_blank eq_refl eq_refl).
  cbn [trace snd].
  rewrite !count_app, count_pushes by reflexivity. reflexivity.
Qed.

(** ** A response that is not a success *)

Lemma startsWith_app (a b : jsstring) : JsString.startsWith (a ++ b) a = true.
Proof.
  induction a as [|x a IH]; simpl; [now destruct b|].
  now rewrite N.eqb_refl, IH.
Qed.

Lemma includes_unfold (a b : jsstring) :
  JsString.includes a b
  = JsString.startsWith a b
    || match a with
       | [] => false
       | _ :: a' => JsString.includes a' b
       end.
Proof. destruct a; reflexivity. Qed.

Lemma includes_app (before a after : jsstring) :
  JsString.includes (before ++ a ++ after) a = true.
Proof.
  induction before as [|x before IH].
  - simpl. rewrite includes_unfold, startsWith_app. reflexivity.
  - simpl. rewrite IH. apply orb_true_r.
Qed.

(** When the detail can be read from the payload, or the payload
    cannot be parsed at all, the producer pushes the one diagnostic
    that carries the status and stops, and the reader is never taken.
    The detail cannot be read from a payload that is [null], nor from
    one whose message is truthy and cannot be made a string. *)
Lemma refused_status_reported (taken : list event -> nat)
      (input : ChatInput) (response : Response) (detail : jsstring) :
  trim (message input) <> [] ->
  ok response = false ->
  error_detail response = (Normal detail, []) ->
  exists diagnostic,
    subscribe taken input (Resolved response) []
    = (Normal tt, [Fetch (message input); Push diagnostic; Stop]) /\
    JsString.includes diagnostic (JsString.of_N (status response)) = true.
Proof.
  intros H Hok Hd. eexists. split.
  - exact (subscribe_refused taken _ _ _ H Hok Hd).
  - apply includes_app.
Qed.

Example unauthorized_with_message :
  subscribe asked_once sample_input
    (Resolved {| status := 401; statusText := js "Unauthorized";
                 json := Some (Json.Object
                   [(js "error",
                     Json.Object [(js "message",
                                   Json.String (js "Invalid API key"))])]);
                 body := None |}) []
  = (Normal tt,
     [Fetch (js "hi"); Push (js "API错误: 401 - Invalid API key"); Stop]).
Proof. reflexivity. Qed.

Example unauthorized_unreadable_payload :
  subscribe asked_once sample_input
    (Resolved {| status := 401; statusText := js "Unauthorized";
                 json := None; body := None |}) []
  = (Normal tt,
     [Fetch (js "hi"); Push (js "API错误: 401 - Unauthorized"); Stop]).
Proof. reflexivity. Qed.

Example unauthorized_shadowed_toString :
  subscribe asked_once sample_input
    (Resolved {| status := 401; statusText := js "Unauthorized";
                 json := Some (Json.Object
                   [(js "error",
                     Json.Object
                       [(js "message",
                         Json.Object [(js "toString",
                                       Json.Number false (js "1"))])])]);
                 body := None |}) []
  = (Normal tt,
     [Fetch (js "hi");
      Push (js "服务错误: Cannot convert object to primitive value"); Stop]).
Proof. vm_compute. reflexivity. Qed.

(** C4 fails on a 401 response whose body is the JSON text [null].
    [response.json()] resolves to [null], so the [.catch] that would
    supply the empty object does not run, and reading [errorData.error]
    throws.  The outer [catch] block then pushes its own diagnostic,
    the engine's message for the failed property read, in which the
    status code does not occur. *)
Theorem unauthorized_null_payload (taken : list event -> nat) :
  let response := {| status := 401; statusText := js "Unauthorized";
                     json := Some Json.Null; body := None |} in
  let diagnostic :=
    js "服务错误: Cannot read properties of null (reading 'error')" in
  ok response = false /\
  subscribe taken sample_input (Resolved response) []
  = (Normal tt, [Fetch (js "hi"); Push diagnostic; Stop]) /\
  JsString.includes diagnostic (JsString.of_N 401) = false /\
  JsString.startsWith diagnostic (js "API错误: ") = false.
Proof. vm_compute. repeat split. Qed.

(** * Further properties of the producer *)

(** X1: the upstream request is made at most once in a run: once when
    the message has a code unit that is not white space, never when it
    has none; and the request carries the message as it was given, not
    trimmed. *)
Theorem one_fetch_for_a_message_with_content
        (taken : list event -> nat)
        (input : ChatInput) (upstream : fetch_result) :
  count is_fetch (trace (subscribe taken input upstream []))
  = (if forallb is_space (message input) then 0%nat else 1%nat) /\
  forall content,
    In (Fetch content) (trace (subscribe taken input upstream [])) ->
    content = message input.
Proof.
  destruct (subscribe_run taken input upstream) as [Hrun _].
  assert (Hpush : forall content segs,
             ~ In (Fetch content) (map Push segs)).
  { intros content segs Hin. apply in_map_iff in Hin.
    destruct Hin as (? & ? & _). discriminate. }
  assert (Hend : forall content ending,
             ending = [] \/ ended ending -> ~ In (Fetch content) ending).
  { intros content ending [-> | [-> | (d & ->)]] Hin; simpl in Hin;
      intuition discriminate. }
  set (t := trace (subscribe taken input upstream [])) in *. clearbody t.
  destruct (blank_dec (message input)) as [[-> Hb] | [-> Hb]];
    inversion Hrun as [Ht Heq | ending Ht Hend' Heq
                       | segs ending Ht Hne Hend' Heq ];
    subst t; try congruence; split.
  - reflexivity.
  - intros content [Hin | [Hin | []]]; discriminate.
  - change (Fetch (message input) :: ending)
      with ([Fetch (message input)] ++ ending).
    rewrite count_app, (count_ended is_fetch _ (fun _ => eq_refl) Hend').
    reflexivity.
  - intros content [Hin | Hin]; [congruence|].
    exfalso. eapply Hend; eauto.
  - change (Fetch (message input) :: GetReader :: map Push segs
              ++ ReleaseLock :: ending)
      with ([Fetch (message input); GetReader] ++ map Push segs
              ++ [ReleaseLock] ++ ending).
    rewrite !count_app, count_pushes by reflexivity.
    destruct Hend' as [-> | Hend'];
      [|rewrite (count_ended is_fetch _ (fun _ => eq_refl) Hend')];
      reflexivity.
  - intros content [Hin | [Hin | Hin]]; [congruence|discriminate|].
    exfalso. apply in_app_or in Hin. destruct Hin as [Hin | [Hin | Hin]].
    + eapply Hpush; eauto.
    + discriminate.
    + eapply Hend; eauto.
Qed.

(** X2: [stop] is called at most once in a run, and it is the last call
    the producer makes: nothing is pushed, read or released after
    it.  (A run in which a push throws in the [catch] block does not
    reach it.) *)
Theorem nothing_after_stop (taken : list event -> nat)
        (input : ChatInput) (upstream : fetch_result) :
  (count is_stop (trace (subscribe taken input upstream [])) <= 1)%nat /\
  forall before after,
    trace (subscribe taken input upstream []) = before ++ Stop :: after ->
    after = [].
Proof.
  destruct (subscribe_run taken input upstream) as [Hrun _].
  set (t := trace (subscribe taken input upstream [])) in *. clearbody t.
  assert (Hlast : forall (l : list event) before after,
             ~ In Stop l -> l ++ [Stop] = before ++ Stop :: after ->
             after = []).
  { intros l before after Hl Heq.
    destruct after as [|x after] using rev_ind; [reflexivity|].
    exfalso. clear IHafter.
    change (before ++ Stop :: after ++ [x])
      with (before ++ (Stop :: after) ++ [x]) in Heq.
    rewrite app_assoc in Heq. apply app_inj_tail in Heq.
    destruct Heq as [-> _]. apply Hl, in_or_app. right. now left. }
  assert (Hshape : exists l, ~ In Stop l /\ (t = l \/ t = l ++ [Stop])).
  { assert (Hp : forall segs, ~ In Stop (map Push segs)).
    { intros segs Hin. apply in_map_iff in Hin.
      destruct Hin as (? & ? & _). discriminate. }
    inversion Hrun as [Ht Heq | ending Ht Hend Heq
                       | segs ending Ht Hne Hend Heq ]; subst t.
    - eexists [Push _]. split; [|right; reflexivity].
      simpl. intuition discriminate.
    - destruct Hend as [-> | (d & ->)].
      + exists [Fetch (message input)]. split; [|right; reflexivity].
        simpl. intuition discriminate.
      + exists [Fetch (message input); Push d]. split; [|right; reflexivity].
        simpl. intuition discriminate.
    - assert (Hl : forall extra, ~ In Stop extra ->
                 ~ In Stop (Fetch (message input) :: GetReader
                              :: map Push segs ++ ReleaseLock :: extra)).
      { intros extra He [Hin | [Hin | Hin]]; try discriminate.
        apply in_app_or in Hin. destruct Hin as [Hin | [Hin | Hin]];
          [eapply Hp; eauto | discriminate | auto]. }
      destruct Hend as [-> | [-> | (d & ->)]].
      + eexists. split; [apply (Hl []); simpl; tauto|]. now left.
      + exists (Fetch (message input) :: GetReader
                  :: map Push segs ++ [ReleaseLock]).
        split; [apply (Hl []); simpl; tauto|]. right.
        simpl. now rewrite <- app_assoc.
      + exists (Fetch (message input) :: GetReader
                  :: map Push segs ++ [ReleaseLock; Push d]).
        split; [apply (Hl [Push d]); simpl; intuition discriminate|].
        right. simpl. now rewrite <- app_assoc. }
  destruct Hshape as (l & Hl & Ht).
  assert (Hc : count is_stop l = 0%nat).
  { unfold count. clear - Hl. induction l as [|x l IH]; [reflexivity|].
    simpl. destruct x; simpl; try (apply IH; intros Hin; apply Hl; now right).
    exfalso. apply Hl. now left. }
  destruct Ht as [-> | ->]; split.
  - lia.
  - intros before after Heq. exfalso. apply Hl. rewrite Heq.
    apply in_or_app. right. now left.
  - rewrite count_app, Hc. unfold count. simpl. lia.
  - intros before after Heq. eapply Hlast; eauto.
Qed.

(** X3: a run whose reads all give text until the data ends, with a
    subscriber whose queue has room for it, pushes messages, none of
    them empty, that spell the text received, releases the reader as
    its last call, and returns without calling [stop].  There is room
    when the queue never holds [MAX_QUEUE_LENGTH] values; a text of no
    more code units than that always finds room. *)
Theorem stream_read_to_the_end
        (taken : list event -> nat)
        (input : ChatInput) (response : Response) (fragments : list jsstring) :
  trim (message input) <> [] ->
  ok response = true ->
  body response = Some (map Chunk fragments) ->
  room_for taken (List.length (List.concat fragments)) ->
  exists messages,
    subscribe taken input (Resolved response) []
    = (Normal tt,
       [Fetch (message input); GetReader] ++ map Push messages
         ++ [ReleaseLock]) /\
    List.concat messages = List.concat fragments /\
    Forall (fun m => (1 <= List.length m)%nat) messages /\
    count is_stop (trace (subscribe taken input (Resolved response) []))
    = 0%nat.
Proof.
  intros H Hok Hbody Hroom.
  destruct (fed_exists fragments []) as (segs & rest & Hfed).
  pose proof (fed_steps _ _ _ _ Hfed) as Hsteps. simpl in Hsteps.
  pose proof (fed_concat _ _ _ _ Hfed) as Hcat. simpl in Hcat.
  pose proof (fed_each _ segmentation_nonempty _ _ _ _ Hfed) as Hne.
  assert (Hr : room_for taken
                 (count is_push [Fetch (message input); GetReader]
                  + List.length segs + List.length rest)).
  { eapply room_for_less; [exact Hroom|].
    change (count is_push [Fetch (message input); GetReader]) with 0%nat.
    lia. }
  pose proof (drain_room taken _ _ _ Hfed _ Hr) as Hd.
  pose proof (attempt_streams taken _ _ _ _ _ H Hok Hbody Hd) as Ha.
  apply subscribe_returns in Ha.
  eexists. split; [exact Ha|]. split; [|split].
  - rewrite concat_app, <- Hcat. destruct rest; simpl; now rewrite ?app_nil_r.
  - apply Forall_app. split; [exact Hne|].
    destruct rest; constructor; auto. simpl. lia.
  - rewrite Ha. cbn [trace snd].
    rewrite !count_app, count_pushes by reflexivity. reflexivity.
Qed.

Lemma stream_read_to_the_end_witness :
  exists messages,
    subscribe asked_once sample_input
      (Resolved (sample_stream (map Chunk [js "Hello. Wor"; js "ld"]))) []
    = (Normal tt,
       [Fetch (message sample_input); GetReader] ++ map Push messages
         ++ [ReleaseLock]) /\
    List.concat messages = List.concat [js "Hello. Wor"; js "ld"] /\
    Forall (fun m => (1 <= List.length m)%nat) messages /\
    count is_stop
      (trace (subscribe asked_once sample_input
                (Resolved (sample_stream
                             (map Chunk [js "Hello. Wor"; js "ld"]))) []))
    = 0%nat.
Proof.
  apply (stream_read_to_the_end asked_once sample_input
           (sample_stream (map Chunk [js "Hello. Wor"; js "ld"]))
           [js "Hello. Wor"; js "ld"]).
  - vm_compute. discriminate.
  - reflexivity.
  - reflexivity.
  - apply room_for_few. reflexivity.
Defined.

(** ** What the buffer holds between reads *)

Lemma no_break_no_boundary (rest : jsstring) :
  find_break rest = None -> no_cjk_mark rest /\ no_latin_boundary rest.
Proof.
  unfold find_break.
  destruct (String_match rest cjk_re) eqn:Ecjk; [discriminate|].
  destruct (String_match rest en_re) eqn:Een; [discriminate|]. intros _.
  split; [now apply cjk_absent|].
  intros pre c d tl ->.
  pose proof (String_match_none _ _ Een (List.length pre)) as H.
  rewrite skipn_length_app in H. unfold en_re, alt, class2 in H.
  destruct (is_latin_mark c && is_space d); [discriminate|reflexivity].
Qed.

(** X4: after each pass of the inner loop the text held for the next
    read has no boundary left in it: none of 。？！ and no newline, and
    no Latin mark that is followed by white space. *)
Theorem held_text_has_no_boundary (messageBuffer chunk : jsstring) :
  exists segments rest,
    feed messageBuffer chunk = Some (segments, rest) /\
    no_cjk_mark rest /\ no_latin_boundary rest.
Proof.
  destruct (feed_segmentation messageBuffer chunk) as (segs & rest & E & H).
  exists segs, rest. split; [exact E|].
  apply no_break_no_boundary. eapply segmentation_rest; eauto.
Qed.

(** ** Text cut by one rule only *)

Lemma no_cjk_match (s : jsstring) :
  no_cjk_mark s -> String_match s cjk_re = None.
Proof.
  induction 1 as [|c s Hc _ IH]; [reflexivity|].
  rewrite String_match_cons, IH. unfold cjk_re, class. now rewrite Hc.
Qed.

Lemma String_match_at (re : pattern) (pre suf : jsstring) (n : nat) :
  (forall k, (k < List.length pre)%nat -> re (skipn k (pre ++ suf)) = None) ->
  re suf = Some n ->
  String_match (pre ++ suf) re
  = Some {| index := List.length pre; matched := firstn n suf |}.
Proof.
  intros Hleft Hre. induction pre as [|x pre IH].
  - simpl. destruct suf; simpl; now rewrite Hre.
  - pose proof (Hleft 0%nat ltac:(simpl; lia)) as H0. simpl in H0.
    rewrite <- app_comm_cons, String_match_cons, H0.
    rewrite IH; [reflexivity|].
    intros k Hk. apply (Hleft (S k)). simpl. lia.
Qed.

Lemma en_re_two (u v : N) (s1 s2 : jsstring) :
  en_re (u :: v :: s1) = en_re (u :: v :: s2).
Proof. reflexivity. Qed.

Lemma en_re_inside (pre : jsstring) (c d : N) (tl y : jsstring) (k : nat) :
  (k < List.length pre)%nat ->
  en_re (skipn k (pre ++ c :: d :: tl ++ y))
  = en_re (skipn k (pre ++ c :: d :: tl)).
Proof.
  intros Hk. rewrite !skipn_app.
  replace (k - List.length pre)%nat with 0%nat by lia. simpl.
  destruct (skipn k pre) as [|u w] eqn:E.
  - apply (f_equal (@List.length N)) in E. rewrite length_skipn in E.
    simpl in E. lia.
  - destruct w as [|v w]; simpl; apply en_re_two.
Qed.

Lemma one_rule_suffix (u v : jsstring) : one_rule (u ++ v) -> one_rule v.
Proof.
  intros [H | H]; [left|right].
  - apply Forall_app in H. tauto.
  - intros pre c d tl ->. apply (H (u ++ pre) c d tl).
    now rewrite <- app_assoc.
Qed.

(** In such a text a break found in a buffer is the break found in
    the buffer with more text after it. *)
Lemma find_break_stable (x y : jsstring) (pos size : nat) :
  find_break x = Some (pos, size) ->
  one_rule (x ++ y) ->
  find_break (x ++ y) = Some (pos, size).
Proof.
  intros Hb Hone. unfold find_break in Hb.
  destruct (String_match x cjk_re) as [cjk|] eqn:Ecjk.
  - injection Hb as <- <-.
    destruct (break_at_cjk_mark _ _ Ecjk)
      as (_ & pre & c & tl & -> & <- & Hpre & Hc).
    rewrite <- app_assoc, <- app_comm_cons.
    unfold find_break. now rewrite (cjk_leftmost _ _ _ Hpre Hc).
  - destruct (String_match x en_re) as [en|] eqn:Een; [|discriminate].
    destruct (break_at_latin_mark _ _ Ecjk Een)
      as (Hb' & c & d & Hm & Hc & Hd & _).
    rewrite Hm in Hb. injection Hb as <- <-.
    destruct (String_match_leftmost _ _ _ Een)
      as (pre & suf & n & -> & Hlen & Hre & Hmatched & Hleft).
    assert (Hsuf : exists tl, suf = c :: d :: tl /\ n = 2%nat).
    { apply en_re_inv in Hre.
      destruct Hre as [(-> & c' & d' & tl & -> & _) | (-> & tl & ->)];
        simpl in Hmatched; rewrite Hm in Hmatched; [|discriminate].
      injection Hmatched as -> ->. now exists tl. }
    destruct Hsuf as (tl & -> & ->).
    destruct Hone as [Hno | Hno].
    + rewrite <- app_assoc, <- !app_comm_cons in *.
      unfold find_break. rewrite (no_cjk_match _ Hno).
      rewrite (String_match_at en_re pre (c :: d :: tl ++ y) 2).
      * simpl. now rewrite Hlen.
      * intros k Hk. rewrite en_re_inside by exact Hk.
        apply Hleft. lia.
      * unfold en_re, alt, class2. now rewrite Hc, Hd.
    + exfalso. specialize (Hno pre c d (tl ++ y)).
      rewrite <- app_assoc, <- !app_comm_cons in Hno.
      specialize (Hno eq_refl). now rewrite Hc, Hd in Hno.
Qed.

Lemma segmentation_extend (a : jsstring) segments_a rest_a :
  segmentation a segments_a rest_a ->
  forall b segments rest,
    one_rule (a ++ b) ->
    segmentation (rest_a ++ b) segments rest ->
    segmentation (a ++ b) (segments_a ++ segments) rest.
Proof.
  induction 1 as [a E | a pos size more rest_a E _ IH];
    intros b segments rest Hone Hseg; [exact Hseg|].
  pose proof (find_break_cut _ _ _ E) as Hcut.
  apply cut_bounds in Hcut. destruct Hcut as ((_ & Hle) & _ & _).
  assert (Hto : JsString.substring_to (pos + size) (a ++ b)
                = JsString.substring_to (pos + size) a).
  { unfold JsString.substring_to. rewrite firstn_app.
    replace (pos + size - List.length a)%nat with 0%nat by lia.
    simpl. apply app_nil_r. }
  assert (Hfrom : JsString.substring_from (pos + size) (a ++ b)
                  = JsString.substring_from (pos + size) a ++ b).
  { unfold JsString.substring_from. rewrite skipn_app.
    now replace (pos + size - List.length a)%nat with 0%nat by lia. }
  simpl. rewrite <- Hto.
  apply seg_cut with (1 := find_break_stable _ _ _ _ E Hone).
  rewrite Hfrom. apply IH; [|exact Hseg].
  apply (one_rule_suffix (firstn (pos + size) a)).
  unfold JsString.substring_from. now rewrite app_assoc, firstn_skipn.
Qed.

(** Chunk after chunk, such a text is cut as one pass of the inner
    loop cuts the whole of it. *)
Lemma fed_one_rule buf fragments segments rest :
  fed buf fragments segments rest ->
  find_break buf = None ->
  one_rule (buf ++ List.concat fragments) ->
  segmentation (buf ++ List.concat fragments) segments rest.
Proof.
  induction 1 as [buf | buf chunk fragments segs held more rest E _ IH];
    intros Hbuf Hone.
  - simpl. rewrite app_nil_r. now constructor.
  - apply feed_sound in E. simpl in *. rewrite app_assoc in *.
    assert (Hone' : one_rule (held ++ List.concat fragments)).
    { apply (one_rule_suffix (List.concat segs)).
      now rewrite app_assoc, (segmentation_concat _ _ _ E). }
    eapply segmentation_extend; eauto.
    apply IH; [|exact Hone']. eapply segmentation_rest; eauto.
Qed.

(** X5: text that only one of the two rules can cut is cut the same
    way however it arrives.  When the text holds none of 。？！ and no
    newline, or holds no Latin mark followed by white space, two
    sequences of fragments that spell it make the read loop push the
    same messages and end the same way, in two runs in each of which
    the queue of the subscriber has room for them. *)
Theorem one_rule_text_is_cut_alike
        (taken taken' : list event -> nat)
        (first second : list jsstring) (done done' : list event) :
  List.concat first = List.concat second ->
  one_rule (List.concat first) ->
  room_for taken (count is_push done + List.length (List.concat first)) ->
  room_for taken' (count is_push done' + List.length (List.concat second)) ->
  read_all taken (map Chunk first) done
  = read_all taken' (map Chunk second) done'.
Proof.
  intros Heq Hone Hroom Hroom'.
  destruct (fed_exists first []) as (segs1 & rest1 & H1).
  destruct (fed_exists second []) as (segs2 & rest2 & H2).
  pose proof (fed_one_rule _ _ _ _ H1 eq_refl Hone) as S1.
  rewrite Heq in Hone.
  pose proof (fed_one_rule _ _ _ _ H2 eq_refl Hone) as S2.
  simpl in S1, S2. rewrite Heq in S1.
  destruct (segmentation_functional _ _ _ S1 _ _ S2) as [-> ->].
  pose proof (fed_steps _ _ _ _ H1) as L1. simpl in L1.
  pose proof (fed_steps _ _ _ _ H2) as L2. simpl in L2.
  rewrite (read_all_room taken _ _ _ H1 done)
    by (eapply room_for_less; [exact Hroom|lia]).
  rewrite (read_all_room taken' _ _ _ H2 done')
    by (eapply room_for_less; [exact Hroom'|lia]).
  reflexivity.
Qed.

Lemma one_rule_text_is_cut_alike_witness :
  read_all asked_once
    (map Chunk [js "Hi."; js " there! A"; js "nd? "; js "x"]) []
  = read_all (fun done => List.length done)
      (map Chunk [js "Hi. there! And? x"]) [GetReader].
Proof.
  apply (one_rule_text_is_cut_alike
           asked_once (fun done => List.length done)
           [js "Hi."; js " there! A"; js "nd? "; js "x"]
           [js "Hi. there! And? x"]).
  - reflexivity.
  - left. vm_compute. repeat constructor.
  - apply room_for_few. reflexivity.
  - apply room_for_few. reflexivity.
Defined.

(** Text that both rules can cut is another matter. *)
Example mixed_text_depends_on_the_fragments :
  pushed (trace (read_all asked_once
                   (map Chunk [js "Hi. "; js "你好。"]) []))
  = [js "Hi. "; js "你好。"] /\
  pushed (trace (read_all asked_once (map Chunk [js "Hi. 你好。"]) []))
  = [js "Hi. 你好。"].
Proof. split; reflexivity. Qed.

(** * The chat mutation *)

Lemma chat_attempt_blank (input : ChatInput) (upstream : fetch_result)
      (syntax_error : Error.t) :
  trim (message input) = [] ->
  chat_attempt input upstream syntax_error
  = (Throw (new_Error (js "消息内容不能为空")), []).
Proof. intros H. unfold chat_attempt. rewrite H. reflexivity. Qed.

Lemma chat_attempt_rejected (input : ChatInput) (e syntax_error : Error.t) :
  trim (message input) <> [] ->
  chat_attempt input (Rejected e) syntax_error
  = (Throw e, [Fetch (message input)]).
Proof.
  intros H. unfold chat_attempt. rewrite (truthy_nonempty _ H). reflexivity.
Qed.

Lemma chat_attempt_refused (input : ChatInput) (response : Response)
      (syntax_error : Error.t) :
  trim (message input) <> [] ->
  ok response = false ->
  chat_attempt input (Resolved response) syntax_error
  = (match error_detail response with
     | (Normal detail, _) =>
         Throw (new_Error (js "DeepSeek API 错误: "
                             ++ JsString.of_N (status response)
                             ++ js " - " ++ detail))
     | (Throw e, _) => Throw e
     | (Diverge, _) => Diverge
     end, [Fetch (message input)]).
Proof.
  intros H Hok. unfold chat_attempt.
  rewrite (truthy_nonempty _ H). cbn [negb fetch bind emit ret app].
  rewrite Hok. cbn [negb].
  destruct (error_detail_quiet response) as [(detail & ->) | [-> | ->]];
    reflexivity.
Qed.

Lemma value_or_truthy (a : option Json.value) (text : jsstring) :
  text <> [] -> Json.truthy (value_or a text) = true.
Proof.
  intros H. unfold value_or.
  destruct a as [v|]; [destruct (Json.truthy v) eqn:E; [exact E|]|];
    simpl; now destruct text.
Qed.

Lemma reply_of_quiet (data : Json.value) :
  (exists reply, reply_of data = (Normal reply, []) /\
                 Json.truthy reply = true)
  \/ (exists e, reply_of data = (Throw e, [])).
Proof.
  unfold reply_of.
  assert (Hfb : js "抱歉，没有收到有效回复" <> []) by (vm_compute; discriminate).
  assert (Hget : (exists e, get data "choices" = (Throw e, []))
                 \/ exists choices, get data "choices" = (Normal choices, [])).
  { destruct data; unfold get, ret, throw; eauto. }
  destruct Hget as [(e & ->) | (choices & ->)];
    [right; eexists; reflexivity|].
  cbn [bind].
  assert (Hfirst : (exists e, first_item choices = (Throw e, []))
                   \/ exists choice, first_item choices = (Normal choice, [])).
  { destruct choices as [[]|]; unfold first_item, ret, throw; eauto. }
  destruct Hfirst as [(e & ->) | (choice & ->)];
    [right; eexists; reflexivity|].
  cbn [bind app].
  destruct (get_opt_total choice "message") as (reply & ->). cbn [bind app].
  destruct (get_opt_total reply "content") as (content & ->). cbn [bind app].
  left. eexists. split; [reflexivity|]. now apply value_or_truthy.
Qed.

Lemma chat_attempt_answered (input : ChatInput) (response : Response)
      (syntax_error : Error.t) :
  trim (message input) <> [] ->
  ok response = true ->
  chat_attempt input (Resolved response) syntax_error
  = (match json response with
     | Some data => fst (reply_of data)
     | None => Throw syntax_error
     end, [Fetch (message input)]).
Proof.
  intros H Hok. unfold chat_attempt.
  rewrite (truthy_nonempty _ H). cbn [negb fetch bind emit ret app].
  rewrite Hok. cbn [negb].
  destruct (json response) as [data|]; [|reflexivity].
  cbn [bind ret].
  destruct (reply_of_quiet data) as [(reply & -> & _) | (e & ->)];
    reflexivity.
Qed.

(** The [try] of [chat] ends with a truthy reply or with a throw, after
    no call or after the one request. *)
Lemma chat_attempt_ends (input : ChatInput) (upstream : fetch_result)
      (syntax_error : Error.t) :
  ((exists reply, outcome (chat_attempt input upstream syntax_error)
                  = Normal reply /\ Json.truthy reply = true)
   \/ exists e, outcome (chat_attempt input upstream syntax_error) = Throw e)
  /\ trace (chat_attempt input upstream syntax_error)
     = if forallb is_space (message input) then []
       else [Fetch (message input)].
Proof.
  destruct (blank_dec (message input)) as [[-> Hb] | [-> Hb]].
  - rewrite (chat_attempt_blank _ _ _ Hb).
    split; [right; eexists; reflexivity|reflexivity].
  - destruct upstream as [response|e].
    + destruct (ok response) eqn:Hok.
      * rewrite (chat_attempt_answered _ _ _ Hb Hok).
        split; [|reflexivity]. cbn [outcome fst].
        destruct (json response) as [data|]; [|right; eexists; reflexivity].
        destruct (reply_of_quiet data) as [(reply & -> & Ht) | (e & ->)];
          [left; exists reply; now split|right; eexists; reflexivity].
      * rewrite (chat_attempt_refused _ _ _ Hb Hok).
        split; [|reflexivity]. cbn [outcome fst]. right.
        destruct (error_detail_quiet response)
          as [(detail & ->) | [-> | ->]]; eexists; reflexivity.
    + rewrite (chat_attempt_rejected _ _ _ Hb).
      split; [right; eexists; reflexivity|reflexivity].
Qed.

Lemma chat_wraps (input : ChatInput) (upstream : fetch_result)
      (syntax_error e : Error.t) (t : list event) :
  chat_attempt input upstream syntax_error = (Throw e, t) ->
  chat input upstream syntax_error
  = (Throw (new_Error (js "聊天失败: " ++ Error.message e)), t).
Proof.
  intros H. unfold chat, try_catch. rewrite H. cbn [throw].
  now rewrite app_nil_r.
Qed.

(** X6: [chat] never lets a failure out as it came: whatever goes wrong
    (the message, the request, the status, the body), what it throws is
    an [Error] whose message is the cause after the prefix it adds.  When
    it returns, the reply is never empty or otherwise falsy.  It makes
    the upstream request once, and not at all for a blank message. *)
Theorem chat_replies_or_wraps_the_failure
        (input : ChatInput) (upstream : fetch_result) (syntax_error : Error.t) :
  ((exists reply, outcome (chat input upstream syntax_error) = Normal reply /\
                  Json.truthy reply = true)
   \/ exists cause, outcome (chat input upstream syntax_error)
                    = Throw (new_Error (js "聊天失败: " ++ cause)))
  /\ trace (chat input upstream syntax_error)
     = if forallb is_space (message input) then []
       else [Fetch (message input)].
Proof.
  destruct (chat_attempt_ends input upstream syntax_error) as [Hc Ht].
  destruct (chat_attempt input upstream syntax_error) as [c t] eqn:E.
  cbn [outcome trace fst snd] in *.
  destruct Hc as [(reply & -> & Htr) | (e & ->)].
  - unfold chat, try_catch. rewrite E. cbn [outcome trace fst snd].
    split; [left; eauto|exact Ht].
  - rewrite (chat_wraps _ _ _ _ _ E). cbn [outcome trace fst snd].
    split; [right; eauto|exact Ht].
Qed.

(** X7: a message that is empty or holds white space only makes [chat]
    throw its own complaint, wrapped, and no request is made. *)
Theorem chat_blank_message (input : ChatInput) (upstream : fetch_result)
        (syntax_error : Error.t) :
  Forall (fun c => is_space c = true) (message input) ->
  chat input upstream syntax_error
  = (Throw (new_Error (js "聊天失败: " ++ js "消息内容不能为空")), []).
Proof.
  intros H. apply trim_blank in H.
  now rewrite (chat_wraps _ _ _ _ _ (chat_attempt_blank _ _ _ H)).
Qed.

Lemma chat_blank_message_witness :
  chat {| message := [32; 10; 9; 12288] |}
       (Resolved (sample_stream [])) Error.AbortError
  = (Throw (new_Error (js "聊天失败: " ++ js "消息内容不能为空")), []).
Proof.
  apply (chat_blank_message {| message := [32; 10; 9; 12288] |}).
  simpl. repeat constructor.
Defined.

(** X8: a response that is not a success makes [chat] throw.  When
    the detail can be read from the payload, the error names the
    status: its message is the prefix of [chat], the label of the
    upstream, the status in decimal and the detail.  When reading the
    payload throws, which it does on [null] and on a truthy message
    that cannot be made a string, and on nothing else, the error
    carries the message of that failure after the prefix of [chat]. *)
Theorem chat_refused_status (input : ChatInput) (response : Response)
        (syntax_error : Error.t) :
  trim (message input) <> [] ->
  ok response = false ->
  (forall detail,
      error_detail response = (Normal detail, []) ->
      chat input (Resolved response) syntax_error
      = (Throw (new_Error (js "聊天失败: " ++ js "DeepSeek API 错误: "
                             ++ JsString.of_N (status response)
                             ++ js " - " ++ detail)),
         [Fetch (message input)]) /\
      forall e,
        outcome (chat input (Resolved response) syntax_error) = Throw e ->
        JsString.includes (Error.message e)
                          (JsString.of_N (status response)) = true) /\
  (forall cause,
      error_detail response = (Throw cause, []) ->
      chat input (Resolved response) syntax_error
      = (Throw (new_Error (js "聊天失败: " ++ Error.message cause)),
         [Fetch (message input)])) /\
  ((exists detail, error_detail response = (Normal detail, []))
   \/ error_detail response = (Throw (Error.TypeError_of_null "error"), [])
   \/ error_detail response = (Throw Error.TypeError_to_primitive, [])).
Proof.
  intros H Hok.
  pose proof (chat_attempt_refused _ _ syntax_error H Hok) as Ha.
  split; [|split; [|apply error_detail_quiet]].
  - intros detail Hd. rewrite Hd in Ha. rewrite (chat_wraps _ _ _ _ _ Ha).
    split; [reflexivity|].
    cbn [outcome fst]. intros e He.
    apply (f_equal (fun c => match c with
                             | Throw x => Error.message x
                             | _ => []
                             end)) in He.
    rewrite <- He. unfold new_Error, Error.message.
    rewrite (app_assoc (js "聊天失败: ")). apply includes_app.
  - intros cause Hd. rewrite Hd in Ha. now rewrite (chat_wraps _ _ _ _ _ Ha).
Qed.

Lemma chat_refused_status_witness :
  let response := {| status := 503; statusText := js "Service Unavailable";
                     json := None; body := None |} in
  chat sample_input (Resolved response) Error.AbortError
  = (Throw (new_Error (js "聊天失败: " ++ js "DeepSeek API 错误: "
                         ++ JsString.of_N (status response)
                         ++ js " - " ++ js "Service Unavailable")),
     [Fetch (message sample_input)]) /\
  forall e,
    outcome (chat sample_input (Resolved response) Error.AbortError)
    = Throw e ->
    JsString.includes (Error.message e)
                      (JsString.of_N (status response)) = true.
Proof.
  intros response.
  apply (proj1 (chat_refused_status sample_input response Error.AbortError
                  sample_input_not_blank eq_refl)
           (js "Service Unavailable")).
  reflexivity.
Defined.

Example chat_refused_shadowed_toString :
  chat sample_input
    (Resolved {| status := 401; statusText := js "Unauthorized";
                 json := Some (Json.Object
                   [(js "error",
                     Json.Object
                       [(js "message",
                         Json.Object [(js "toString",
                                       Json.Number false (js "1"))])])]);
                 body := None |}) Error.AbortError
  = (Throw (new_Error
              (js "聊天失败: Cannot convert object to primitive value")),
     [Fetch (js "hi")]).
Proof. vm_compute. reflexivity. Qed.

Lemma chat_returns (input : ChatInput) (response : Response)
      (syntax_error : Error.t) (data reply : Json.value) :
  trim (message input) <> [] ->
  ok response = true ->
  json response = Some data ->
  reply_of data = (Normal reply, []) ->
  chat input (Resolved response) syntax_error
  = (Normal reply, [Fetch (message input)]).
Proof.
  intros H Hok Hj Hr. unfold chat, try_catch.
  rewrite (chat_attempt_answered _ _ _ H Hok), Hj, Hr. reflexivity.
Qed.

(** X9: from a successful response whose body has the expected shape,
    [chat] returns the content of the message of the first choice, when
    that content is truthy. *)
Theorem chat_returns_the_first_choice
        (input : ChatInput) (response : Response) (syntax_error : Error.t)
        (fields choice reply : list (jsstring * Json.value))
        (others : list Json.value) (content : Json.value) :
  trim (message input) <> [] ->
  ok response = true ->
  json response = Some (Json.Object fields) ->
  Json.lookup fields (js "choices")
  = Some (Json.Array (Json.Object choice :: others)) ->
  Json.lookup choice (js "message") = Some (Json.Object reply) ->
  Json.lookup reply (js "content") = Some content ->
  Json.truthy content = true ->
  chat input (Resolved response) syntax_error
  = (Normal content, [Fetch (message input)]).
Proof.
  intros H Hok Hj Hchoices Hmessage Hcontent Htruthy.
  apply (chat_returns _ _ _ _ _ H Hok Hj).
  unfold reply_of, get. rewrite Hchoices. cbn [bind ret first_item hd_error].
  unfold get_opt, get. rewrite Hmessage. cbn [bind ret app].
  rewrite Hcontent. cbn [bind ret app]. unfold value_or. now rewrite Htruthy.
Qed.

Lemma chat_returns_the_first_choice_witness :
  chat sample_input
    (Resolved (sample_completion
                 [Json.Object
                    [(js "index", Json.Number true (js "0"));
                     (js "message",
                      Json.Object [(js "role", Json.String (js "assistant"));
                                   (js "content", Json.String (js "Hello!"))])];
                  Json.Null]))
    Error.AbortError
  = (Normal (Json.String (js "Hello!")), [Fetch (js "hi")]).
Proof.
  apply (chat_returns_the_first_choice sample_input
           (sample_completion
              [Json.Object
                 [(js "index", Json.Number true (js "0"));
                  (js "message",
                   Json.Object [(js "role", Json.String (js "assistant"));
                                (js "content", Json.String (js "Hello!"))])];
               Json.Null])
           Error.AbortError
           [(js "id", Json.String (js "c1"));
            (js "choices",
             Json.Array
               [Json.Object
                  [(js "index", Json.Number true (js "0"));
                   (js "message",
                    Json.Object [(js "role", Json.String (js "assistant"));
                                 (js "content", Json.String (js "Hello!"))])];
                Json.Null])]
           [(js "index", Json.Number true (js "0"));
            (js "message",
             Json.Object [(js "role", Json.String (js "assistant"));
                          (js "content", Json.String (js "Hello!"))])]
           [(js "role", Json.String (js "assistant"));
            (js "content", Json.String (js "Hello!"))]
           [Json.Null] (Json.String (js "Hello!")));
    try reflexivity.
  vm_compute. discriminate.
Defined.

(** X10: a successful response whose body is an object without a
    [choices] key makes [chat] fail on reading the first choice: it
    throws the engine's complaint about [undefined], wrapped. *)
Theorem chat_without_choices
        (input : ChatInput) (response : Response) (syntax_error : Error.t)
        (fields : list (jsstring * Json.value)) :
  trim (message input) <> [] ->
  ok response = true ->
  json response = Some (Json.Object fields) ->
  Json.lookup fields (js "choices") = None ->
  chat input (Resolved response) syntax_error
  = (Throw (new_Error
              (js "聊天失败: "
                 ++ js "Cannot read properties of undefined (reading '0')")),
     [Fetch (message input)]).
Proof.
  intros H Hok Hj Hchoices.
  pose proof (chat_attempt_answered _ _ syntax_error H Hok) as Ha.
  rewrite Hj in Ha. unfold reply_of, get in Ha. rewrite Hchoices in Ha.
  cbn [bind ret first_item throw fst] in Ha.
  now rewrite (chat_wraps _ _ _ _ _ Ha).
Qed.

Lemma chat_without_choices_witness :
  chat sample_input
    (Resolved {| status := 200; statusText := js "OK";
                 json := Some (Json.Object [(js "id", Json.String (js "c1"))]);
                 body := None |})
    Error.AbortError
  = (Throw (new_Error
              (js "聊天失败: "
                 ++ js "Cannot read properties of undefined (reading '0')")),
     [Fetch (js "hi")]).
Proof.
  apply (chat_without_choices sample_input
           {| status := 200; statusText := js "OK";
              json := Some (Json.Object [(js "id", Json.String (js "c1"))]);
              body := None |}
           Error.AbortError [(js "id", Json.String (js "c1"))]);
    try reflexivity.
  vm_compute. discriminate.
Defined.

(** X11: a successful response with no usable reply (an empty list of
    choices, a first choice that is [null] or has no message, a message
    with no content or with an empty one) makes [chat] return its
    stock apology, not fail. *)
Theorem chat_falls_back
        (input : ChatInput) (response : Response) (syntax_error : Error.t)
        (fields : list (jsstring * Json.value)) (choices : list Json.value) :
  trim (message input) <> [] ->
  ok response = true ->
  json response = Some (Json.Object fields) ->
  Json.lookup fields (js "choices") = Some (Json.Array choices) ->
  (forall choice reply content,
      hd_error choices = Some (Json.Object choice) ->
      Json.lookup choice (js "message") = Some (Json.Object reply) ->
      Json.lookup reply (js "content") = Some content ->
      Json.truthy content = false) ->
  (forall choice reply,
      hd_error choices = Some (Json.Object choice) ->
      Json.lookup choice (js "message") = Some reply ->
      reply = Json.Null \/ exists entries, reply = Json.Object entries) ->
  (hd_error choices = None \/ hd_error choices = Some Json.Null
   \/ exists choice, hd_error choices = Some (Json.Object choice)) ->
  chat input (Resolved response) syntax_error
  = (Normal (Json.String (js "抱歉，没有收到有效回复")),
     [Fetch (message input)]).
Proof.
  intros H Hok Hj Hchoices Hfalsy Hreply Hfirst.
  apply (chat_returns _ _ _ _ _ H Hok Hj).
  unfold reply_of, get. rewrite Hchoices. cbn [bind ret first_item app].
  destruct Hfirst as [-> | [-> | (choice & Hc)]]; try reflexivity.
  rewrite Hc. unfold get_opt at 1, get. cbn [bind ret app].
  destruct (Json.lookup choice (js "message")) as [reply|] eqn:Hm;
    [|reflexivity].
  destruct (Hreply _ _ Hc Hm) as [-> | (entries & ->)]; [reflexivity|].
  unfold get_opt, get. cbn [bind ret app].
  destruct (Json.lookup entries (js "content")) as [content|] eqn:Hcontent;
    [|reflexivity].
  unfold value_or. now rewrite (Hfalsy _ _ _ Hc Hm Hcontent).
Qed.

Lemma chat_falls_back_witness :
  chat sample_input (Resolved (sample_completion [])) Error.AbortError
  = (Normal (Json.String (js "抱歉，没有收到有效回复")), [Fetch (js "hi")]).
Proof.
  apply (chat_falls_back sample_input (sample_completion []) Error.AbortError
           [(js "id", Json.String (js "c1")); (js "choices", Json.Array [])]
           []); try reflexivity.
  - vm_compute. discriminate.
  - discriminate.
  - discriminate.
  - now left.
Defined.

(** * The request handler *)

Lemma eqb_eq (a b : jsstring) : JsString.eqb a b = true <-> a = b.
Proof.
  revert b. induction a as [|x a IH]; intros [|y b]; simpl;
    try (split; [discriminate|congruence]); [tauto|].
  rewrite andb_true_iff, N.eqb_eq, IH. split.
  - now intros [-> ->].
  - now intros [= -> ->].
Qed.

Lemma same_name_fuse (n k name : jsstring) :
  Headers.same_name n k = true ->
  Headers.same_name n name = Headers.same_name k name.
Proof.
  unfold Headers.same_name. intros H. apply eqb_eq in H. now rewrite H.
Qed.

Lemma get_filter (h : Headers.t) (name : jsstring) :
  Headers.get h name
  = match filter (named name) h with
    | [] => None
    | found => Some (Headers.join (map snd found))
    end.
Proof. reflexivity. Qed.

Lemma filter_named_cons (n x : jsstring) (h : Headers.t) (name : jsstring) :
  filter (named name) ((n, x) :: h)
  = if Headers.same_name n name then (n, x) :: filter (named name) h
    else filter (named name) h.
Proof. reflexivity. Qed.

Lemma same_name_split (n k name : jsstring) :
  Headers.same_name n k = false ->
  Headers.same_name k name = true ->
  Headers.same_name n name = false.
Proof.
  unfold Headers.same_name. intros Hn Hk. apply eqb_eq in Hk.
  now rewrite <- Hk.
Qed.

Lemma remove_cons (n x : jsstring) (h : Headers.t) (k : jsstring) :
  Headers.remove ((n, x) :: h) k
  = if Headers.same_name n k then Headers.remove h k
    else (n, x) :: Headers.remove h k.
Proof.
  unfold Headers.remove. simpl. now destruct (Headers.same_name n k).
Qed.

Lemma set_cons (n x : jsstring) (h : Headers.t) (k v : jsstring) :
  Headers.set ((n, x) :: h) k v
  = if Headers.same_name n k then (n, v) :: Headers.remove h k
    else (n, x) :: Headers.set h k v.
Proof. reflexivity. Qed.

Lemma filter_remove_same (h : Headers.t) (k name : jsstring) :
  Headers.same_name k name = true ->
  filter (named name) (Headers.remove h k) = [].
Proof.
  intros Hk. induction h as [|[n x] h IH]; [reflexivity|].
  rewrite remove_cons. destruct (Headers.same_name n k) eqn:E; [exact IH|].
  now rewrite filter_named_cons, (same_name_split _ _ _ E Hk).
Qed.

Lemma filter_remove_other (h : Headers.t) (k name : jsstring) :
  Headers.same_name k name = false ->
  filter (named name) (Headers.remove h k) = filter (named name) h.
Proof.
  intros Hk. induction h as [|[n x] h IH]; [reflexivity|].
  rewrite remove_cons, !filter_named_cons.
  destruct (Headers.same_name n k) eqn:E.
  - now rewrite (same_name_fuse _ _ name E), Hk.
  - rewrite filter_named_cons, IH. reflexivity.
Qed.

(** What was set is what is got, under any spelling of the name. *)
Lemma filter_set_same (h : Headers.t) (k v name : jsstring) :
  Headers.same_name k name = true ->
  exists n, filter (named name) (Headers.set h k v) = [(n, v)].
Proof.
  intros Hk. induction h as [|[n x] h IH].
  - simpl. unfold named. simpl. rewrite Hk. eauto.
  - rewrite set_cons. destruct (Headers.same_name n k) eqn:E.
    + rewrite filter_named_cons, (same_name_fuse _ _ name E), Hk.
      rewrite (filter_remove_same _ _ _ Hk). eauto.
    + now rewrite filter_named_cons, (same_name_split _ _ _ E Hk).
Qed.

(** Setting one header leaves the others as they were. *)
Lemma filter_set_other (h : Headers.t) (k v name : jsstring) :
  Headers.same_name k name = false ->
  filter (named name) (Headers.set h k v) = filter (named name) h.
Proof.
  intros Hk. induction h as [|[n x] h IH].
  - simpl. unfold named. simpl. now rewrite Hk.
  - rewrite set_cons, !filter_named_cons.
    destruct (Headers.same_name n k) eqn:E.
    + rewrite filter_named_cons, (same_name_fuse _ _ name E), Hk.
      now apply filter_remove_other.
    + rewrite filter_named_cons, IH. reflexivity.
Qed.

Lemma get_set_same (h : Headers.t) (k v name : jsstring) :
  Headers.same_name k name = true ->
  Headers.get (Headers.set h k v) name = Some v.
Proof.
  intros Hk. rewrite get_filter.
  destruct (filter_set_same h k v name Hk) as (n & ->). reflexivity.
Qed.

Lemma get_set_other (h : Headers.t) (k v name : jsstring) :
  Headers.same_name k name = false ->
  Headers.get (Headers.set h k v) name = Headers.get h name.
Proof.
  intros Hk. now rewrite !get_filter, (filter_set_other _ _ _ _ Hk).
Qed.

Lemma method_not_options (request : Http.Request) :
  Http.method request <> js "OPTIONS" ->
  JsString.eqb (Http.method request) (js "OPTIONS") = false.
Proof.
  intros H. destruct (JsString.eqb _ _) eqn:E; [|reflexivity].
  apply eqb_eq in E. contradiction.
Qed.

Lemma set_each_cors (h : Headers.t) :
  set_each CORS_HEADERS h
  = Headers.set
      (Headers.set
         (Headers.set h (js "Access-Control-Allow-Origin") (js "*"))
         (js "Access-Control-Allow-Methods") (js "GET, POST, OPTIONS"))
      (js "Access-Control-Allow-Headers")
      (js "Content-Type, Authorization, Accept").
Proof. reflexivity. Qed.

Lemma get_set_each_cors (h : Headers.t) :
  Headers.get (set_each CORS_HEADERS h) (js "Access-Control-Allow-Origin")
  = Some (js "*") /\
  Headers.get (set_each CORS_HEADERS h) (js "Access-Control-Allow-Methods")
  = Some (js "GET, POST, OPTIONS") /\
  Headers.get (set_each CORS_HEADERS h) (js "Access-Control-Allow-Headers")
  = Some (js "Content-Type, Authorization, Accept").
Proof.
  rewrite set_each_cors. repeat split.
  - rewrite !get_set_other by (vm_compute; reflexivity).
    apply get_set_same. vm_compute. reflexivity.
  - rewrite get_set_other by (vm_compute; reflexivity).
    apply get_set_same. vm_compute. reflexivity.
  - apply get_set_same. vm_compute. reflexivity.
Qed.

(** X12: every response the handler gives carries the three CORS
    headers with the values of the table: the answer to a preflight
    request, the answer yoga gave (whatever headers it had, and whether
    or not the content type is replaced), and the answer made when yoga
    threw. *)
Theorem every_response_has_the_cors_headers
        (request : Http.Request) (yoga : yoga_result) :
  Headers.get (Http.headers (handle request yoga))
              (js "Access-Control-Allow-Origin")
  = Some (js "*") /\
  Headers.get (Http.headers (handle request yoga))
              (js "Access-Control-Allow-Methods")
  = Some (js "GET, POST, OPTIONS") /\
  Headers.get (Http.headers (handle request yoga))
              (js "Access-Control-Allow-Headers")
  = Some (js "Content-Type, Authorization, Accept").
Proof.
  unfold handle.
  destruct (JsString.eqb (Http.method request) (js "OPTIONS")).
  - cbn [Http.headers]. repeat split; vm_compute; reflexivity.
  - destruct yoga as [response|e]; cbn [Http.headers].
    + destruct (JsString.includes (Http.url request) (js "subscription")).
      * rewrite !get_set_other by (vm_compute; reflexivity).
        apply get_set_each_cors.
      * apply get_set_each_cors.
    + repeat split; vm_compute; reflexivity.
Qed.

(** X13: for a request that is not a preflight, the answer of yoga goes
    through: the status and the body are its own, and so is every
    header whose name is none of the four the handler sets. *)
Theorem answer_passes_through
        (request : Http.Request) (response : Http.Response) (name : jsstring) :
  Http.method request <> js "OPTIONS" ->
  Headers.same_name (js "Content-Type") name = false ->
  Headers.same_name (js "Access-Control-Allow-Origin") name = false ->
  Headers.same_name (js "Access-Control-Allow-Methods") name = false ->
  Headers.same_name (js "Access-Control-Allow-Headers") name = false ->
  Http.status (handle request (Answered response)) = Http.status response /\
  Http.body (handle request (Answered response)) = Http.body response /\
  Headers.get (Http.headers (handle request (Answered response))) name
  = Headers.get (Http.headers response) name.
Proof.
  intros Hm Hct H1 H2 H3. unfold handle. rewrite (method_not_options _ Hm).
  cbn [Http.status Http.body Http.headers]. repeat split.
  assert (He : Headers.get (set_each CORS_HEADERS (Http.headers response)) name
               = Headers.get (Http.headers response) name).
  { rewrite set_each_cors.
    rewrite (get_set_other _ _ _ _ H3), (get_set_other _ _ _ _ H2).
    exact (get_set_other _ _ _ _ H1). }
  destruct (JsString.includes (Http.url request) (js "subscription"));
    [rewrite (get_set_other _ _ _ _ Hct)|]; exact He.
Qed.

Lemma answer_passes_through_witness :
  let request := {| Http.method := js "POST";
                    Http.url := js "https://worker.example/" |} in
  Http.status (handle request (Answered sample_answer)) = 200 /\
  Http.body (handle request (Answered sample_answer)) = Http.Passed (js "{}") /\
  Headers.get (Http.headers (handle request (Answered sample_answer)))
              (js "x-request-id")
  = Headers.get (Http.headers sample_answer) (js "x-request-id").
Proof.
  apply (answer_passes_through
           {| Http.method := js "POST"; Http.url := js "https://worker.example/" |}
           sample_answer (js "x-request-id")).
  - vm_compute. discriminate.
  - vm_compute. reflexivity.
  - vm_compute. reflexivity.
  - vm_compute. reflexivity.
  - vm_compute. reflexivity.
Defined.

(** X14: for a request that is not a preflight, the content type of the
    answer is [text/event-stream] exactly when the URL of the request
    contains "subscription", whatever content type yoga had set and
    however the header name is spelled; otherwise it is the content
    type yoga gave. *)
Theorem content_type_of_the_answer
        (request : Http.Request) (response : Http.Response) (name : jsstring) :
  Http.method request <> js "OPTIONS" ->
  Headers.same_name (js "Content-Type") name = true ->
  Headers.get (Http.headers (handle request (Answered response))) name
  = if JsString.includes (Http.url request) (js "subscription")
    then Some (js "text/event-stream")
    else Headers.get (Http.headers response) name.
Proof.
  intros Hm Hct. unfold handle. rewrite (method_not_options _ Hm).
  cbn [Http.headers].
  destruct (JsString.includes (Http.url request) (js "subscription")).
  - now apply get_set_same.
  - rewrite set_each_cors.
    assert (Hother : forall k,
               Headers.same_name k (js "Content-Type") = false ->
               Headers.same_name k name = false).
    { intros k Hk. unfold Headers.same_name in *.
      apply eqb_eq in Hct. now rewrite <- Hct. }
    now rewrite !get_set_other by (apply Hother; vm_compute; reflexivity).
Qed.

Lemma content_type_of_the_answer_witness :
  let request := {| Http.method := js "POST";
                    Http.url := js "https://worker.example/?subscription=1" |} in
  Headers.get (Http.headers (handle request (Answered sample_answer)))
              (js "content-type")
  = if JsString.includes (Http.url request) (js "subscription")
    then Some (js "text/event-stream")
    else Headers.get (Http.headers sample_answer) (js "content-type").
Proof.
  apply (content_type_of_the_answer
           {| Http.method := js "POST";
              Http.url := js "https://worker.example/?subscription=1" |}
           sample_answer (js "content-type")).
  - vm_compute. discriminate.
  - vm_compute. reflexivity.
Defined.

(** * What a refusal tells *)

(** X15: when the payload of a refusal is an object whose [error] is an
    object with a non-empty string as [message], the one diagnostic the
    producer pushes is the status followed by that message. *)
Theorem refusal_shows_the_upstream_message
        (taken : list event -> nat)
        (input : ChatInput) (response : Response)
        (fields error : list (jsstring * Json.value)) (text : jsstring) :
  trim (message input) <> [] ->
  ok response = false ->
  json response = Some (Json.Object fields) ->
  Json.lookup fields (js "error") = Some (Json.Object error) ->
  Json.lookup error (js "message") = Some (Json.String text) ->
  text <> [] ->
  subscribe taken input (Resolved response) []
  = (Normal tt,
     [Fetch (message input);
      Push (js "API错误: " ++ JsString.of_N (status response)
              ++ js " - " ++ text);
      Stop]).
Proof.
  intros H Hok Hj Herror Hmessage Htext.
  apply (subscribe_refused taken _ _ _ H Hok).
  exact (error_detail_string _ _ _ _ Hj Herror Hmessage Htext).
Qed.

Lemma refusal_shows_the_upstream_message_witness :
  subscribe asked_once sample_input
    (Resolved (sample_refusal
                 (Some (Json.Object
                          [(js "error",
                            Json.Object [(js "message",
                                          Json.String (js "slow down"));
                                         (js "code", Json.Null)])])))) []
  = (Normal tt,
     [Fetch (message sample_input);
      Push (js "API错误: " ++ JsString.of_N 429 ++ js " - " ++ js "slow down");
      Stop]).
Proof.
  apply (refusal_shows_the_upstream_message asked_once sample_input
           (sample_refusal
              (Some (Json.Object
                       [(js "error",
                         Json.Object [(js "message",
                                       Json.String (js "slow down"));
                                      (js "code", Json.Null)])])))
           [(js "error",
             Json.Object [(js "message", Json.String (js "slow down"));
                          (js "code", Json.Null)])]
           [(js "message", Json.String (js "slow down"));
            (js "code", Json.Null)]
           (js "slow down")); try reflexivity.
  - vm_compute. discriminate.
  - vm_compute. discriminate.
Defined.

(** X16: when the payload of a refusal cannot be parsed, or is an
    object without an [error] key, the diagnostic falls back on the
    status text of the response. *)
Theorem refusal_falls_back_on_the_status_text
        (taken : list event -> nat)
        (input : ChatInput) (response : Response) :
  trim (message input) <> [] ->
  ok response = false ->
  (json response = None \/
   exists fields, json response = Some (Json.Object fields) /\
                  Json.lookup fields (js "error") = None) ->
  subscribe taken input (Resolved response) []
  = (Normal tt,
     [Fetch (message input);
      Push (js "API错误: " ++ JsString.of_N (status response)
              ++ js " - " ++ statusText response);
      Stop]).
Proof.
  intros H Hok Hj. apply (subscribe_refused taken _ _ _ H Hok).
  now apply error_detail_absent.
Qed.

Lemma refusal_falls_back_on_the_status_text_witness :
  subscribe asked_once sample_input (Resolved (sample_refusal None)) []
  = (Normal tt,
     [Fetch (message sample_input);
      Push (js "API错误: " ++ JsString.of_N (status (sample_refusal None))
              ++ js " - " ++ statusText (sample_refusal None));
      Stop]).
Proof.
  apply (refusal_falls_back_on_the_status_text asked_once sample_input
           (sample_refusal None)).
  - vm_compute. discriminate.
  - reflexivity.
  - now left.
Defined.

(** * What a pushed message can hold *)

Lemma cut_closed_at_the_end (buf : jsstring) (pos size : nat) :
  cut buf pos size ->
  closed_at_the_end (JsString.substring_to (pos + size) buf).
Proof.
  unfold closed_at_the_end, JsString.substring_to.
  intros [pre c tl Hpre Hc | pre c d tl Hno Hc Hd]; rewrite firstn_app_2.
  - change (firstn 1 (c :: tl)) with [c]. now rewrite removelast_last.
  - change (firstn 2 (c :: d :: tl)) with ([c] ++ [d]).
    rewrite app_assoc, removelast_last.
    change (pre ++ c :: d :: tl) with (pre ++ [c] ++ d :: tl) in Hno.
    rewrite app_assoc in Hno. now apply no_cjk_mark_prefix in Hno.
Qed.

Lemma segmentation_closed (buf : jsstring) segments rest :
  segmentation buf segments rest -> Forall closed_at_the_end segments.
Proof.
  induction 1 as [buf E | buf pos size more rest E _ IH]; constructor; auto.
  apply cut_closed_at_the_end, find_break_cut, E.
Qed.

Lemma no_cjk_mark_removelast (s : jsstring) :
  no_cjk_mark s -> no_cjk_mark (removelast s).
Proof.
  intros H. destruct s as [|x s] using rev_ind; [exact H|].
  rewrite removelast_last. now apply no_cjk_mark_prefix in H.
Qed.

(** X17: no message pushed from the text of the stream runs past a
    line break or a CJK sentence mark: whatever the reads give,
    whatever has been pushed before and whatever room the queue has, in
    every message that a run of the inner [try] block pushes, a newline
    or one of 。？！ can only be the last code unit. *)
Theorem no_message_runs_past_a_line_break
        (taken : list event -> nat)
        (reader : list read_result) (done : list event) :
  Forall closed_at_the_end (pushed (trace (read_all taken reader done))).
Proof.
  destruct (read_all_any taken closed_at_the_end segmentation_closed
              (fun rest _ Hrest =>
                 no_cjk_mark_removelast _
                   (proj1 (no_break_no_boundary _ Hrest)))
              reader done)
    as (c & sent & -> & Hsent & _).
  cbn [trace snd]. now rewrite pushed_map_Push.
Qed.

(** * The plain relay *)

Lemma relay_set_each_cors (h : Headers.t) :
  set_each Relay.CORS_HEADERS h
  = Headers.set
      (Headers.set
         (Headers.set h (js "Access-Control-Allow-Origin") (js "*"))
         (js "Access-Control-Allow-Methods") (js "POST, OPTIONS"))
      (js "Access-Control-Allow-Headers") (js "Content-Type, Authorization").
Proof. reflexivity. Qed.

(** The answers the relay makes up itself all have the same headers. *)
Lemma relay_own_answer (request : Relay.Request) (key : option jsstring)
      (upstream : Relay.upstream_result) :
  Relay.headers (snd (Relay.fetch request key upstream)) = Relay.json_headers
  \/ exists call upstreamResp,
       upstream = Relay.Answers upstreamResp /\
       Relay.fetch request key upstream
       = (Some call,
          {| Relay.status := Relay.status upstreamResp;
             Relay.statusText := Relay.statusText upstreamResp;
             Relay.headers :=
               set_each Relay.CORS_HEADERS (Relay.headers upstreamResp);
             Relay.body := Relay.body upstreamResp |}).
Proof.
  unfold Relay.fetch.
  destruct (JsString.eqb (Relay.method request) (js "POST")); [|now left].
  unfold Relay.onRequestPost.
  destruct (Relay.parsed request) as [err|requestBody]; [now left|].
  cbv zeta.
  destruct (Relay.pick_all _) as [err|picked]; [now left|].
  destruct key as [secret|]; [|now left].
  destruct (negb (truthy secret)); [now left|].
  destruct upstream as [upstreamResp|err]; [|now left].
  right. eauto.
Qed.

(** X18: every response of the plain relay carries its three CORS
    headers: the answers it makes up itself (405, 400, 500) and the
    answer of the upstream that it passes back, whatever headers that
    had. *)
Theorem relay_answers_have_the_cors_headers
        (request : Relay.Request) (key : option jsstring)
        (upstream : Relay.upstream_result) :
  Headers.get (Relay.headers (snd (Relay.fetch request key upstream)))
              (js "Access-Control-Allow-Origin")
  = Some (js "*") /\
  Headers.get (Relay.headers (snd (Relay.fetch request key upstream)))
              (js "Access-Control-Allow-Methods")
  = Some (js "POST, OPTIONS") /\
  Headers.get (Relay.headers (snd (Relay.fetch request key upstream)))
              (js "Access-Control-Allow-Headers")
  = Some (js "Content-Type, Authorization").
Proof.
  destruct (relay_own_answer request key upstream)
    as [-> | (call & upstreamResp & _ & ->)].
  - repeat split; vm_compute; reflexivity.
  - cbn [snd Relay.headers]. rewrite relay_set_each_cors. repeat split.
    + rewrite !get_set_other by (vm_compute; reflexivity).
      apply get_set_same. vm_compute. reflexivity.
    + rewrite get_set_other by (vm_compute; reflexivity).
      apply get_set_same. vm_compute. reflexivity.
    + apply get_set_same. vm_compute. reflexivity.
Qed.

(** X19: the relay calls the upstream only for a POST and only with a
    key that is not empty, and the call carries that key as its bearer
    token. *)
Theorem relay_calls_only_with_a_key
        (request : Relay.Request) (key : option jsstring)
        (upstream : Relay.upstream_result) (call : Relay.Call) :
  fst (Relay.fetch request key upstream) = Some call ->
  Relay.method request = js "POST" /\
  exists secret,
    key = Some secret /\ secret <> [] /\
    Relay.authorization call = js "Bearer " ++ secret.
Proof.
  unfold Relay.fetch.
  destruct (JsString.eqb (Relay.method request) (js "POST")) eqn:Em;
    [|discriminate].
  apply eqb_eq in Em. unfold Relay.onRequestPost.
  destruct (Relay.parsed request) as [err|requestBody]; [discriminate|].
  cbv zeta.
  destruct (Relay.pick_all _) as [err|picked]; [discriminate|].
  destruct key as [secret|]; [|discriminate].
  destruct secret as [|c secret]; [discriminate|].
  cbn [truthy JsString.eqb negb].
  destruct upstream as [upstreamResp|err]; cbn [fst]; intros [= <-];
    (split; [exact Em|]); eexists; repeat split; discriminate.
Qed.

Lemma relay_calls_only_with_a_key_witness :
  Relay.method sample_post = js "POST" /\
  exists secret,
    Some (js "sk") = Some secret /\ secret <> [] /\
    Relay.authorization sample_call = js "Bearer " ++ secret.
Proof.
  apply (relay_calls_only_with_a_key sample_post (Some (js "sk"))
           (Relay.Rejects Error.AbortError) sample_call).
  vm_compute. reflexivity.
Defined.

Lemma pick_all_stripped (items relayed : list Json.value) :
  Forall2 stripped items relayed -> Relay.pick_all items = inr relayed.
Proof.
  induction 1 as [|m kept items relayed Hm _ IH]; [reflexivity|].
  destruct Hm as (fields & role & content & -> & Hrole & Hcontent & ->).
  cbn [Relay.pick_all Relay.pick Relay.field].
  now rewrite Hrole, Hcontent, IH.
Qed.

(** X20: for a POST whose body has only a list of message objects, the
    relay sends upstream the default model, the default system message
    followed by the messages in the order given, each cut down to its
    role and content, and [stream: true], under the bearer token. *)
Theorem relay_sends_the_messages
        (request : Relay.Request) (secret : jsstring)
        (upstream : Relay.upstream_result)
        (fields : list (jsstring * Json.value))
        (items relayed : list Json.value) :
  Relay.method request = js "POST" ->
  Relay.parsed request = inr (Json.Object fields) ->
  Json.lookup fields (js "messages") = Some (Json.Array items) ->
  Json.lookup fields (js "systemMessage") = None ->
  Json.lookup fields (js "model") = None ->
  Json.lookup fields (js "stream") = None ->
  Forall2 stripped items relayed ->
  secret <> [] ->
  fst (Relay.fetch request (Some secret) upstream)
  = Some {| Relay.authorization := js "Bearer " ++ secret;
            Relay.sent :=
              Json.Object
                [(js "model", Json.String (js "deepseek-chat"));
                 (js "messages",
                  Json.Array (Relay.default_system :: relayed));
                 (js "stream", Json.Bool true)] |}.
Proof.
  intros Hm Hp Hmessages Hsystem Hmodel Hstream Hitems Hsecret.
  unfold Relay.fetch. rewrite Hm.
  replace (JsString.eqb (js "POST") (js "POST")) with true
    by (symmetry; now apply eqb_eq).
  unfold Relay.onRequestPost. rewrite Hp. cbv zeta.
  cbn [Json.truthy Relay.field]. rewrite Hmessages, Hsystem, Hmodel, Hstream.
  cbn [Relay.userMessages Relay.defaulted Relay.system_or_default].
  rewrite (pick_all_stripped _ _ Hitems).
  destruct secret as [|c secret]; [congruence|].
  cbn [truthy JsString.eqb negb]. now destruct upstream.
Qed.

Lemma relay_sends_the_messages_witness :
  fst (Relay.fetch sample_post (Some (js "sk")) (Relay.Answers sample_upstream))
  = Some {| Relay.authorization := js "Bearer " ++ js "sk";
            Relay.sent :=
              Json.Object
                [(js "model", Json.String (js "deepseek-chat"));
                 (js "messages",
                  Json.Array
                    (Relay.default_system
                       :: [Json.Object
                             [(js "role", Json.String (js "user"));
                              (js "content", Json.String (js "hi"))]]));
                 (js "stream", Json.Bool true)] |}.
Proof.
  apply (relay_sends_the_messages sample_post (js "sk")
           (Relay.Answers sample_upstream)
           [(js "messages",
             Json.Array
               [Json.Object [(js "role", Json.String (js "user"));
                             (js "content", Json.String (js "hi"));
                             (js "id", Json.String (js "m1"))]])]
           [Json.Object [(js "role", Json.String (js "user"));
                         (js "content", Json.String (js "hi"));
                         (js "id", Json.String (js "m1"))]]
           [Json.Object [(js "role", Json.String (js "user"));
                         (js "content", Json.String (js "hi"))]]);
    try reflexivity.
  - constructor; [|constructor].
    exists [(js "role", Json.String (js "user"));
            (js "content", Json.String (js "hi"));
            (js "id", Json.String (js "m1"))],
      (Json.String (js "user")), (Json.String (js "hi")).
    repeat split; reflexivity.
  - vm_compute. discriminate.
Defined.




Lemma pick_all_null (items : list Json.value) :
  In Json.Null items ->
  Relay.pick_all items = inl (Error.TypeError_of_null "role").
Proof.
  induction items as [|m items IH]; [intros []|].
  intros [-> | Hin]; [reflexivity|].
  cbn [Relay.pick_all]. destruct m; try reflexivity;
    cbn [Relay.pick]; now rewrite (IH Hin).
Qed.

(** X22: a POST whose list of messages has a [null] in it is answered
    400 with the engine's complaint about the property read, and the
    upstream is not called, whatever the key. *)
Theorem relay_null_message
        (request : Relay.Request) (key : option jsstring)
        (upstream : Relay.upstream_result)
        (fields : list (jsstring * Json.value)) (items : list Json.value) :
  Relay.method request = js "POST" ->
  Relay.parsed request = inr (Json.Object fields) ->
  Json.lookup fields (js "messages") = Some (Json.Array items) ->
  In Json.Null items ->
  Relay.fetch request key upstream
  = (None, Relay.bad_request (Error.TypeError_of_null "role")).
Proof.
  intros Hm Hp Hmessages Hin.
  unfold Relay.fetch. rewrite Hm.
  replace (JsString.eqb (js "POST") (js "POST")) with true
    by (symmetry; now apply eqb_eq).
  unfold Relay.onRequestPost. rewrite Hp. cbv zeta.
  cbn [Json.truthy Relay.field]. rewrite Hmessages.
  cbn [Relay.userMessages]. now rewrite (pick_all_null _ Hin).
Qed.

Lemma relay_null_message_witness :
  Relay.fetch
    {| Relay.method := js "POST";
       Relay.parsed :=
         inr (Json.Object [(js "messages", Json.Array [Json.Null])]) |}
    (Some (js "sk")) (Relay.Answers sample_upstream)
  = (None, Relay.bad_request (Error.TypeError_of_null "role")).
Proof.
  apply (relay_null_message
           {| Relay.method := js "POST";
              Relay.parsed :=
                inr (Json.Object [(js "messages", Json.Array [Json.Null])]) |}
           (Some (js "sk")) (Relay.Answers sample_upstream)
           [(js "messages", Json.Array [Json.Null])] [Json.Null]);
    try reflexivity.
  now left.
Defined.
